(** * Taxonomic tree builder: resolution engine

    A shallow embedding of the tree-construction part of [src/main.py]
    (class [TaxonomicTreeBuilder]): the reader ([read], [process_line]),
    the tree operations ([add_node_to_tree], [fetch_node]), the resolver
    ([build_tree]), the lineage walk ([build_classification]) and the
    two-pass driver ([processing]).

    Conventions of the embedding.
    - Python [str] is [string]; [str.lower] is modelled on ASCII letters.
    - Python [int] is [Z]; [len] of a string or list is a [nat].
    - The tree of the [treelib] package is a finite map from node
      identifier to node; only the operations the builder calls are
      modelled ([create_node], [get_node], [parent], [update_node]).
    - A call either returns or raises: [result].  A loop that may not
      finish runs on fuel and answers [None] when the fuel is used up.
    - The export callbacks, the progress printing and the timers are not
      part of the embedding. *)

From Stdlib Require Import ZArith Ascii String List Lia.
From stdpp Require Import gmap strings list fin_maps.

Local Open Scope string_scope.
Local Open Scope list_scope.
Local Open Scope nat_scope.

(** ** Strings *)

Definition is_upper (c : ascii) : bool :=
  let n := nat_of_ascii c in (65 <=? n) && (n <=? 90).

Definition lower_ascii (c : ascii) : ascii :=
  if is_upper c then ascii_of_nat (nat_of_ascii c + 32) else c.

(** [s.lower()] *)
Fixpoint lower (s : string) : string :=
  match s with
  | EmptyString => EmptyString
  | String c s' => String (lower_ascii c) (lower s')
  end.

(** ** Exceptions and results *)

Inductive exn : Type :=
| IndexError
| AttributeError
| DuplicatedNodeIdError
| NodeIDAbsentError
| Exception (cause : exn).

Inductive result (A : Type) : Type :=
| Returned (a : A)
| Raised (e : exn).
Arguments Returned {A} a.
Arguments Raised {A} e.

(** ** Python dictionaries built from a list of pairs *)

(** [d[k] = v]: an existing key keeps its position and takes the new
    value, a new key goes to the end. *)
Fixpoint dict_set {V : Type} (d : list (string * V)) (k : string) (v : V)
  : list (string * V) :=
  match d with
  | [] => [(k, v)]
  | (k', v') :: d' =>
      if decide (k' = k) then (k', v) :: d' else (k', v') :: dict_set d' k v
  end.

(** [dict(l)] for a list of pairs [l]. *)
Definition dict {V : Type} (l : list (string * V)) : list (string * V) :=
  fold_left (fun d kv => dict_set d (fst kv) (snd kv)) l [].

Definition keys {V : Type} (d : list (string * V)) : list string := map fst d.
Definition values {V : Type} (d : list (string * V)) : list V := map snd d.

(** ** Nodes and the tree (treelib) *)

(** [treelib] is a third-party package.  Its [Tree] keeps a dictionary
    from identifier to [Node]; a node knows its tag, its identifier, the
    identifier of its parent and its data.  [create_node] refuses an
    identifier that is taken ([DuplicatedNodeIdError]) and a parent that
    is unknown ([NodeIDAbsentError]) before it stores anything;
    [get_node] answers [None] for an unknown identifier; [parent] raises
    for an unknown identifier and answers [None] for the root.  The
    child lists the package also keeps are never read by the builder and
    are left out. *)

(** The attribute dictionary of a node: ['bytes'] is set when the
    dictionary is created, the other keys are added later. *)
Record Attrs : Type := {
  a_bytes : Z;
  a_id : option Z;
  a_classification : option (list string);
  a_classification_ids : option (list Z)
}.

Record Node : Type := {
  tag : string;
  identifier : string;
  predecessor : option string;
  data : option Attrs
}.

(** [get_value_or_default(data, 'id', 0)]; the root carries no data and
    the failing subscript is swallowed by [key_exists]. *)
Definition get_id_or_default (d : option Attrs) (default : Z) : Z :=
  match d with
  | Some a => match a_id a with Some i => i | None => default end
  | None => default
  end.

(** [get_value_or_default(data, 'classification', [])] and the same for
    ['classification_ids'], as the export reads them. *)
Definition lineage (n : Node) : list string :=
  match data n with
  | Some a => match a_classification a with Some l => l | None => [] end
  | None => []
  end.

Definition lineage_ids (n : Node) : list Z :=
  match data n with
  | Some a => match a_classification_ids a with Some l => l | None => [] end
  | None => []
  end.

Definition root_node : Node :=
  {| tag := "root"; identifier := "root"; predecessor := None; data := None |}.

(** [create_tree]: [Tree()] followed by [create_node('root', 'root')]. *)
Definition create_tree : gmap string Node := {[ "root" := root_node ]}.

(** [Tree.create_node(tag, identifier, parent, data)] with a parent
    identifier: nothing is stored unless both checks pass. *)
Definition create_node (t : gmap string Node) (tg ident par : string)
    (d : Attrs) : result (gmap string Node) :=
  match t !! ident with
  | Some _ => Raised DuplicatedNodeIdError
  | None =>
      match t !! par with
      | None => Raised NodeIDAbsentError
      | Some _ =>
          Returned (<[ ident := {| tag := tg; identifier := ident;
                                   predecessor := Some par;
                                   data := Some d |} ]> t)
      end
  end.

(** [Tree.get_node(nid)]: the node or [None]. *)
Definition get_node (t : gmap string Node) (nid : string) : option Node :=
  t !! nid.

(** [Tree.parent(nid)]: raises for an unknown [nid]; [None] for the root. *)
Definition parent (t : gmap string Node) (nid : string)
  : result (option Node) :=
  match t !! nid with
  | None => Raised NodeIDAbsentError
  | Some n =>
      match predecessor n with
      | None => Returned None
      | Some pid => Returned (t !! pid)
      end
  end.

(** [Tree.update_node(nid, data=d)] *)
Definition update_node (t : gmap string Node) (nid : string) (d : Attrs)
  : result (gmap string Node) :=
  match t !! nid with
  | None => Raised NodeIDAbsentError
  | Some n =>
      Returned (<[ nid := {| tag := tag n; identifier := identifier n;
                             predecessor := predecessor n;
                             data := Some d |} ]> t)
  end.

(** ** The builder *)

(** [__faild_rows] is a class attribute: until an instance assigns its
    own list (the last lines of [processing]), every instance reads and
    appends to the one list of the class. *)
Record Builder : Type := {
  tree : gmap string Node;
  num_read_rows : Z;
  rownum : Z;
  nodes : list string;
  faild_rows_class : list Z;
  faild_rows_own : option (list Z)
}.

(** [TaxonomicTreeBuilder()] in a process whose class list is [cls]. *)
Definition new_builder (cls : list Z) : Builder :=
  {| tree := create_tree; num_read_rows := 0; rownum := 0; nodes := [];
     faild_rows_class := cls; faild_rows_own := None |}.

(** The builder at program start. *)
Definition init : Builder := new_builder [].

(** [self.__faild_rows] *)
Definition faild_rows (self : Builder) : list Z :=
  match faild_rows_own self with
  | Some l => l
  | None => faild_rows_class self
  end.

(** [self.__faild_rows.append(b)] *)
Definition faild_rows_append (self : Builder) (b : Z) : Builder :=
  match faild_rows_own self with
  | Some l =>
      {| tree := tree self; num_read_rows := num_read_rows self;
         rownum := rownum self; nodes := nodes self;
         faild_rows_class := faild_rows_class self;
         faild_rows_own := Some (l ++ [b]) |}
  | None =>
      {| tree := tree self; num_read_rows := num_read_rows self;
         rownum := rownum self; nodes := nodes self;
         faild_rows_class := faild_rows_class self ++ [b];
         faild_rows_own := None |}
  end.

(** [self.__faild_rows = []] *)
Definition faild_rows_reset (self : Builder) : Builder :=
  {| tree := tree self; num_read_rows := num_read_rows self;
     rownum := rownum self; nodes := nodes self;
     faild_rows_class := faild_rows_class self;
     faild_rows_own := Some [] |}.

Definition set_num_read_rows (self : Builder) (n : Z) : Builder :=
  {| tree := tree self; num_read_rows := n; rownum := rownum self;
     nodes := nodes self; faild_rows_class := faild_rows_class self;
     faild_rows_own := faild_rows_own self |}.

Definition set_tree (self : Builder) (t : gmap string Node) : Builder :=
  {| tree := t; num_read_rows := num_read_rows self; rownum := rownum self;
     nodes := nodes self; faild_rows_class := faild_rows_class self;
     faild_rows_own := faild_rows_own self |}.

Definition nodes_append (self : Builder) (k : string) : Builder :=
  {| tree := tree self; num_read_rows := num_read_rows self;
     rownum := rownum self; nodes := nodes self ++ [k];
     faild_rows_class := faild_rows_class self;
     faild_rows_own := faild_rows_own self |}.

Definition rownum_incr (self : Builder) : Builder :=
  {| tree := tree self; num_read_rows := num_read_rows self;
     rownum := (rownum self + 1)%Z; nodes := nodes self;
     faild_rows_class := faild_rows_class self;
     faild_rows_own := faild_rows_own self |}.

(** [data.update({'id': n})] *)
Definition attrs_set_id (d : Attrs) (n : Z) : Attrs :=
  {| a_bytes := a_bytes d; a_id := Some n;
     a_classification := a_classification d;
     a_classification_ids := a_classification_ids d |}.

(** The two [data_attributes.update] calls of [build_tree]. *)
Definition attrs_set_classification (d : Attrs) (c : list string)
    (ids : list Z) : Attrs :=
  {| a_bytes := a_bytes d; a_id := a_id d;
     a_classification := Some c; a_classification_ids := Some ids |}.

(** [add_node_to_tree(tag, parent, data)].  The answer pairs what the
    call does (it returns the dictionary it has written the id into, or
    it raises) with the builder the call leaves behind. *)
Definition add_node_to_tree (self : Builder) (tg par : string) (d : Attrs)
  : result Attrs * Builder :=
  let self1 := set_num_read_rows self (num_read_rows self + 1)%Z in
  let ident := lower tg in
  let par := lower par in
  let d := attrs_set_id d (num_read_rows self1) in
  match create_node (tree self1) tg ident par d with
  | Raised e =>
      (Raised (Exception e),
       set_num_read_rows self1 (num_read_rows self1 - 1)%Z)
  | Returned t => (Returned d, nodes_append (set_tree self1 t) ident)
  end.

(** [fetch_node(nid, False)] *)
Definition fetch_node (self : Builder) (nid : string) : option Node :=
  get_node (tree self) (lower nid).

(** ** Lineage walk *)

(** [get_parent] inside [build_classification]: any failure is [None]. *)
Definition get_parent (t : gmap string Node) (nid : string) : option Node :=
  match parent t nid with
  | Returned n => n
  | Raised _ => None
  end.

(** The [while] loop of [build_classification], on fuel. *)
Fixpoint classification_loop (fuel : nat) (t : gmap string Node)
    (node : option Node) : option (list (string * Z)) :=
  match node with
  | None => Some []
  | Some n =>
      match fuel with
      | O => None
      | S fuel' =>
          match classification_loop fuel' t (get_parent t (identifier n)) with
          | Some rest => Some ((tag n, get_id_or_default (data n) 0) :: rest)
          | None => None
          end
      end
  end.

(** [build_classification(nid)].  A walk that visits more nodes than the
    tree holds has entered a cycle and never ends: [None]. *)
Definition build_classification (self : Builder) (nid : string)
  : option (list (string * Z)) :=
  classification_loop (size (tree self)) (tree self)
    (get_parent (tree self) nid).

(** ** Rows and the reader *)

Record Row : Type := {
  r_data : list string;
  r_bytes : Z;
  r_line : Z;
  r_header : bool
}.

(** A physical line of the input: the position [tell] reports before it
    is read and the fields [csv.reader] splits it into. *)
Record Line : Type := {
  l_bytes : Z;
  l_fields : list string
}.

(** [process_line]: one row per line. *)
Definition process_line (l : Line) (line_number header : Z) : list Row :=
  [ {| r_data := l_fields l; r_bytes := l_bytes l; r_line := line_number;
       r_header := (line_number <=? header)%Z |} ].

(** [read(header)] in streaming mode: the rows up to the end of the
    file, or up to a read that reports the position of the one before. *)
Fixpoint read_stream (header : Z) (latest_bytes : option Z)
    (line_number : Z) (f : list Line) : list Row :=
  match f with
  | [] => []
  | l :: f' =>
      if decide (latest_bytes = Some (l_bytes l)) then []
      else process_line l line_number header
             ++ read_stream header (Some (l_bytes l)) (line_number + 1)%Z f'
  end.

(** [read(header, seek_bytes)] where [seek_bytes] is the offset at
    which a line starts, as are all the offsets the builder seeks to
    (it keeps the [bytes] of rows it has read): the one line found at
    that position.  A seek into the middle of a line is not covered. *)
Definition read_seek (header : Z) (seek_bytes : Z) (f : list Line)
  : list Row :=
  match List.find (fun l => bool_decide (l_bytes l = seek_bytes)) f with
  | None => []
  | Some l => process_line l 1%Z header
  end.

(** ** The resolver *)

(** How a call of [build_tree] ends: it returns, or an exception leaves
    it; in both cases with the builder as the call left it. *)
Inductive outcome : Type :=
| Continue (self : Builder)
| Abort (e : exn) (self : Builder).

(** The accepted-usage step: the parent identifier to use, or the
    exception the [try] block catches. *)
Definition accepted_parent (self : Builder) (acceptedNameUsageId : string)
  : result string :=
  match fetch_node self acceptedNameUsageId with
  | None => Raised AttributeError
  | Some acceptedNameUsageData =>
      match parent (tree self) (identifier acceptedNameUsageData) with
      | Raised e => Raised e
      | Returned None => Raised AttributeError
      | Returned (Some p) => Returned (identifier p)
      end
  end.

(** [data_attributes = {'bytes': row['bytes']}] *)
Definition fresh_attrs (row : Row) : Attrs :=
  {| a_bytes := r_bytes row; a_id := None;
     a_classification := None; a_classification_ids := None |}.

(** The second half of [build_tree], from [data_attributes] on, with
    the parent identifier the first half has settled on. *)
Definition insert_under (self : Builder) (row : Row)
    (taxonId parentId : string) : option outcome :=
  let data_attributes := fresh_attrs row in
  if 0 <? String.length parentId then
    match add_node_to_tree self taxonId parentId data_attributes with
    | (Raised _, self1) => Some (Continue (faild_rows_append self1 (r_bytes row)))
    | (Returned d, self1) =>
        match build_classification self1 (lower taxonId) with
        | None => None
        | Some classification =>
            if 0 <? length classification then
              let d' := attrs_set_classification d
                          (keys (dict (removelast classification)))
                          (values (dict (removelast classification))) in
              match update_node (tree self1) (lower taxonId) d' with
              | Raised e => Some (Abort e self1)
              | Returned t => Some (Continue (rownum_incr (set_tree self1 t)))
              end
            else Some (Continue (rownum_incr self1))
        end
    end
  else
    match add_node_to_tree self taxonId "root" data_attributes with
    | (Raised e, self1) => Some (Abort e self1)
    | (Returned _, self1) => Some (Continue (rownum_incr self1))
    end.

(** [build_tree(row)]; [None] when the lineage walk does not end. *)
Definition build_tree (self : Builder) (row : Row) : option outcome :=
  match r_data row !! 0 with
  | None => Some (Abort IndexError self)
  | Some taxonId =>
      match r_data row !! 1 with
      | None => Some (Abort IndexError self)
      | Some data1 =>
          match r_data row !! 2 with
          | None => Some (Abort IndexError self)
          | Some data2 =>
              let parentId := lower data1 in
              let acceptedNameUsageId := lower data2 in
              if r_header row then Some (Continue self)
              else if 0 <? String.length acceptedNameUsageId then
                match accepted_parent self acceptedNameUsageId with
                | Raised _ =>
                    Some (Continue (faild_rows_append self (r_bytes row)))
                | Returned parentId' => insert_under self row taxonId parentId'
                end
              else insert_under self row taxonId parentId
          end
      end
  end.

(** A [for row in ...: self.build_tree(row)] loop over rows already read. *)
Fixpoint build_rows (self : Builder) (rows : list Row) : option outcome :=
  match rows with
  | [] => Some (Continue self)
  | row :: rows' =>
      match build_tree self row with
      | Some (Continue self') => build_rows self' rows'
      | other => other
      end
  end.

(** The retry loop of [processing]: [for bytes in self.__faild_rows].
    The list iterator holds a position [i] into the list object and asks
    for its length before every step, so offsets appended while the loop
    runs are visited too. *)
Fixpoint retry_loop (fuel : nat) (f : list Line) (i : nat) (self : Builder)
  : option outcome :=
  match faild_rows self !! i with
  | None => Some (Continue self)
  | Some bytes =>
      match fuel with
      | O => None
      | S fuel' =>
          match build_rows self (read_seek 0 bytes f) with
          | Some (Continue self') => retry_loop fuel' f (S i) self'
          | other => other
          end
      end
  end.

(** [processing], up to the point where the callbacks are run. *)
Definition processing (fuel : nat) (f : list Line) (self : Builder)
  : option outcome :=
  match build_rows self (read_stream 1 None 1 f) with
  | Some (Continue self1) =>
      match retry_loop fuel f 0 self1 with
      | Some (Continue self2) => Some (Continue (faild_rows_reset self2))
      | other => other
      end
  | other => other
  end.

(** ** Sample inputs *)

Definition header_line : Line :=
  {| l_bytes := 0; l_fields := ["taxonID"; "parentNameUsageID"; "acceptedNameUsageID"] |}.

(** header, then (A, , ), (B, A, ), (C, , B) *)
Definition file_abc : list Line :=
  [ header_line;
    {| l_bytes := 45; l_fields := ["A"; ""; ""] |};
    {| l_bytes := 49; l_fields := ["B"; "A"; ""] |};
    {| l_bytes := 54; l_fields := ["C"; ""; "B"] |} ].

(** header, then (B, Z, ): the parent Z is nowhere in the file *)
Definition file_orphan : list Line :=
  [ header_line;
    {| l_bytes := 45; l_fields := ["B"; "Z"; ""] |} ].

(** header, then (B, A, ), (A, , ): a forward reference *)
Definition file_forward : list Line :=
  [ header_line;
    {| l_bytes := 45; l_fields := ["B"; "A"; ""] |};
    {| l_bytes := 50; l_fields := ["A"; ""; ""] |} ].

(** header, (A, , ), (B, A, ), (C, , B), then (D, C, ): a row naming the
    synonym C as its parent *)
Definition file_synonym_parent : list Line :=
  file_abc ++ [ {| l_bytes := 59; l_fields := ["D"; "C"; ""] |} ].

(** header, (A, , ), then a line with two fields only *)
Definition file_short : list Line :=
  [ header_line;
    {| l_bytes := 45; l_fields := ["A"; ""; ""] |};
    {| l_bytes := 49; l_fields := ["B"; "A"] |} ].

(** The builder an outcome continues with ([init] where there is none). *)
Definition continued (o : option outcome) : Builder :=
  match o with
  | Some (Continue self) => self
  | _ => init
  end.

(** The builder after the first pass over [file_abc]. *)
Definition after_abc : Builder :=
  continued (build_rows init (read_stream 1 None 1 file_abc)).

(** The builder after the header and the rows A and B of [file_abc]. *)
Definition after_ab : Builder :=
  continued (build_rows init (read_stream 1 None 1 (take 3 file_abc))).

(** The row (C, , B) of [file_abc], as the first pass reads it. *)
Definition row_c : Row :=
  {| r_data := ["C"; ""; "B"]; r_bytes := 54%Z; r_line := 4%Z;
     r_header := false |}.

(** The builder [processing] ends with on [file_forward]. *)
Definition after_forward (fuel : nat) : Builder :=
  continued (processing fuel file_forward init).

(** ** Notions used to state the properties *)

(** [depth_is t k d]: [d] parent links lead from node [k] to a node
    without a parent. *)
Inductive depth_is (t : gmap string Node) : string → nat → Prop :=
| depth_top k n :
    t !! k = Some n → predecessor n = None → depth_is t k 0
| depth_below k n p d :
    t !! k = Some n → predecessor n = Some p → depth_is t p d →
    depth_is t k (S d).

(** The sequence id stored with node [k]. *)
Definition sequence_id (self : Builder) (k : string) : option Z :=
  match tree self !! k with
  | Some n => match data n with Some a => a_id a | None => None end
  | None => None
  end.

(** The parent identifier stored with node [k]. *)
Definition parent_id (self : Builder) (k : string) : option string :=
  match tree self !! k with
  | Some n => predecessor n
  | None => None
  end.

(** Builders that a sequence of [build_tree] calls produces. *)
Inductive steps : Builder → Builder → Prop :=
| steps_refl self : steps self self
| steps_call self self1 self2 row :
    steps self self1 → build_tree self1 row = Some (Continue self2) →
    steps self self2.

Definition reachable (self : Builder) : Prop := steps init self.

(** Shape of the trees the builder produces. *)
Record tree_wf (t : gmap string Node) : Prop := {
  wf_root : t !! "root" = Some root_node;
  wf_key : ∀ k n, t !! k = Some n → identifier n = k ∧ lower (tag n) = k;
  wf_pred : ∀ k n, t !! k = Some n → k ≠ "root" →
            ∃ p, predecessor n = Some p ∧ is_Some (t !! p) ∧
                 p ≠ "" ∧ lower p = p;
  wf_depth : ∀ k n, t !! k = Some n → ∃ d, depth_is t k d ∧ d < size t
}.

(** The cached lineage of every node is as long as the node is deep. *)
Definition lineage_ok (t : gmap string Node) : Prop :=
  ∀ k n d, t !! k = Some n → k ≠ "root" → depth_is t k d →
    S (length (lineage n)) = d ∧ S (length (lineage_ids n)) = d.

(** The nodes list numbers the nodes in the order they were added. *)
Definition numbering_ok (self : Builder) : Prop :=
  num_read_rows self = Z.of_nat (length (nodes self)) ∧
  ∀ i k, nodes self !! i = Some k →
    k ≠ "root" ∧ sequence_id self k = Some (Z.of_nat i + 1)%Z.

Record builder_wf (self : Builder) : Prop := {
  bwf_tree : tree_wf (tree self);
  bwf_lineage : lineage_ok (tree self);
  bwf_numbering : numbering_ok self
}.

(** What a call of [build_tree] that adds the node of [taxonId] under
    [p] does to the builder. *)
Record inserted (self self' : Builder) (row : Row) (taxonId p : string)
  : Prop := {
  ins_fresh : tree self !! lower taxonId = None;
  ins_parent : is_Some (tree self !! p) ∧ p ≠ "" ∧ lower p = p;
  ins_node : ∃ n a,
      tree self' = <[ lower taxonId := n ]> (tree self) ∧
      tag n = taxonId ∧ identifier n = lower taxonId ∧
      predecessor n = Some p ∧ data n = Some a ∧
      a_bytes a = r_bytes row ∧
      a_id a = Some (num_read_rows self + 1)%Z ∧
      ∀ d, depth_is (tree self) p d →
           length (lineage n) = d ∧ length (lineage_ids n) = d;
  ins_nodes : nodes self' = nodes self ++ [lower taxonId];
  ins_count : num_read_rows self' = (num_read_rows self + 1)%Z;
  ins_faild : faild_rows self' = faild_rows self
}.

(** ** The export side *)

(** [s.replace("'", "''")] *)
Fixpoint double_quotes (s : string) : string :=
  match s with
  | EmptyString => EmptyString
  | String c s' =>
      if Ascii.eqb c "'" then String c (String c (double_quotes s'))
      else String c (double_quotes s')
  end.

(** [quote_string_for_db(s)] *)
Definition quote_string_for_db (s : string) : string :=
  String "'" (double_quotes s +:+ "'").

(** What a reader of SQL takes the text after an opening quote to be:
    the characters up to the closing quote, a doubled quote standing
    for one quote; [None] when the text is not exactly one such literal
    (no closing quote, or text left over behind it). *)
Fixpoint sql_literal_body (s : string) : option string :=
  match s with
  | EmptyString => None
  | String c s' =>
      if Ascii.eqb c "'" then
        match s' with
        | EmptyString => Some EmptyString
        | String c' s'' =>
            if Ascii.eqb c' "'" then
              match sql_literal_body s'' with
              | Some v => Some (String "'" v)
              | None => None
              end
            else None
        end
      else
        match sql_literal_body s' with
        | Some v => Some (String c v)
        | None => None
        end
  end.

(** The string an SQL string literal stands for. *)
Definition sql_literal_value (s : string) : option string :=
  match s with
  | EmptyString => None
  | String c s' => if Ascii.eqb c "'" then sql_literal_body s' else None
  end.

Definition is_digit (c : ascii) : bool :=
  let n := nat_of_ascii c in (48 <=? n) && (n <=? 57).

Definition is_lower_letter (c : ascii) : bool :=
  let n := nat_of_ascii c in (97 <=? n) && (n <=? 122).

(** A character of the ASCII range. *)
Definition is_ascii (c : ascii) : bool := nat_of_ascii c <? 128.

(** A string of ASCII characters only. *)
Fixpoint ascii_only (s : string) : bool :=
  match s with
  | EmptyString => true
  | String c s' => is_ascii c && ascii_only s'
  end.

(** An ASCII character that the class [[\W_]] does not match. *)
Definition is_alnum (c : ascii) : bool :=
  is_digit c || is_upper c || is_lower_letter c.

(** [re.sub(r'[\W_]+', '_', s)] for a string of ASCII characters: every
    maximal run of characters other than letters and digits becomes one
    underscore.  [in_run] tells that the character before belonged to
    such a run. *)
Fixpoint sub_runs (in_run : bool) (s : string) : string :=
  match s with
  | EmptyString => EmptyString
  | String c s' =>
      if is_alnum c then String c (sub_runs false s')
      else if in_run then sub_runs true s'
      else String "_" (sub_runs true s')
  end.

(** [slug(value)] for a string of ASCII characters.  On other
    characters the regular expression and [str.lower] go by the Unicode
    class of the character, which strings of bytes do not show: there
    the embedding gives no answer ([None]). *)
Definition slug (value : string) : option string :=
  if ascii_only value then Some (lower (sub_runs false value)) else None.

(** A string of lower-case letters, digits and underscores in which no
    underscore follows another ([after_us]: the character before was an
    underscore). *)
Fixpoint slugged (after_us : bool) (s : string) : bool :=
  match s with
  | EmptyString => true
  | String c s' =>
      if is_digit c || is_lower_letter c then slugged false s'
      else if Ascii.eqb c "_" then negb after_us && slugged true s'
      else false
  end.

(** [set_headers(row)] computes [self.headers], the slug of every
    field ([None] when a field is outside what [slug] covers);
    [headers_after] is the value of [self.headers] once the rows have
    gone through [process_line]. *)
Fixpoint set_headers (row : list string) : option (list string) :=
  match row with
  | [] => Some []
  | header :: row' =>
      match slug header, set_headers row' with
      | Some h, Some hs => Some (h :: hs)
      | _, _ => None
      end
  end.

Fixpoint headers_after (headers : option (list string)) (rows : list Row)
  : option (list string) :=
  match rows with
  | [] => headers
  | row :: rows' =>
      headers_after
        (if r_header row then set_headers (r_data row) else headers) rows'
  end.

(** [d[k]] for a dictionary kept as a list of pairs. *)
Fixpoint dict_get {V : Type} (d : list (string * V)) (k : string)
  : option V :=
  match d with
  | [] => None
  | (k', v) :: d' => if decide (k' = k) then Some v else dict_get d' k
  end.

(** Why [fetch_node(nid, True)] or [combine] fails. *)
Inductive fetch_failure : Type :=
| NoSuchNode      (* [node] is [None]: [node.data] raises AttributeError *)
| NoDataToRead    (* the root: [data['bytes']] raises TypeError *)
| NoRowAtOffset.  (* a bare node came back: [node['raw']] raises TypeError *)

(** What [fetch_node(nid, True)] returns: the dictionary with the row
    read again and the node, or, when nothing is read at the stored
    offset, the node alone. *)
Inductive fetched : Type :=
| RawAndNode (raw : Row) (node : Node)
| NodeAlone (node : Node).

(** [fetch_node(nid, True)] on the input [f]. *)
Definition fetch_node_extended (self : Builder) (f : list Line)
    (nid : string) : fetch_failure + fetched :=
  match get_node (tree self) (lower nid) with
  | None => inl NoSuchNode
  | Some node =>
      match data node with
      | None => inl NoDataToRead
      | Some d =>
          match read_seek 0 (a_bytes d) f with
          | row :: _ => inr (RawAndNode row node)
          | [] => inr (NodeAlone node)
          end
      end
  end.

(** [combine(nid)], with [headers] for [self.get_headers()]. *)
Definition combine (self : Builder) (f : list Line) (headers : list string)
    (nid : string) : fetch_failure + list (string * string) :=
  match fetch_node_extended self f nid with
  | inl e => inl e
  | inr (NodeAlone _) => inl NoRowAtOffset
  | inr (RawAndNode raw _) => inr (dict (zip headers (r_data raw)))
  end.

(** The batching loop of [save_to_database] over the statements built
    for the nodes, in order: the texts handed to [executor.submit]. *)
Fixpoint save_loop (i : nat) (str_statements : string)
    (statements : list string) : list string :=
  match statements with
  | [] => if 0 <? String.length str_statements then [str_statements] else []
  | statement :: rest =>
      let str_statements := str_statements +:+ statement in
      if (0 <? i) && (i mod 100 =? 0)
      then str_statements :: save_loop (S i) "" rest
      else save_loop (S i) str_statements rest
  end.

Definition save_batches (statements : list string) : list string :=
  save_loop 0 "" statements.

(** [''.join(l)] *)
Fixpoint join (l : list string) : string :=
  match l with
  | [] => ""
  | x :: l' => x +:+ join l'
  end.

(** ** Runs over a given input *)

(** A row as the reader makes it from some line of [f]. *)
Definition row_from (f : list Line) (row : Row) : Prop :=
  ∃ l, l ∈ f ∧ r_bytes row = l_bytes l ∧ r_data row = l_fields l.

(** Builders that calls of [build_tree] on rows of [f] produce. *)
Inductive steps_from (f : list Line) : Builder → Builder → Prop :=
| steps_from_refl self : steps_from f self self
| steps_from_call self self1 self2 row :
    steps_from f self self1 → row_from f row →
    build_tree self1 row = Some (Continue self2) →
    steps_from f self self2.

(** Every node but the root was made from a line of [f]: it stores the
    line's offset, has the line's first field as its label, hangs where
    the line's parent field says when the line has no accepted usage,
    and the accepted usage of the line, when it has one, is a node of the
    tree other than the root. *)
Definition nodes_from (f : list Line) (self : Builder) : Prop :=
  ∀ k n, tree self !! k = Some n → k ≠ "root" →
    ∃ a l, data n = Some a ∧ l ∈ f ∧ a_bytes a = l_bytes l ∧
           l_fields l !! 0 = Some (tag n) ∧
           ∀ d1 d2, l_fields l !! 1 = Some d1 → l_fields l !! 2 = Some d2 →
             (d2 = "" → d1 ≠ "" → predecessor n = Some (lower d1)) ∧
             (d2 = "" → d1 = "" → predecessor n = Some "root") ∧
             (d2 ≠ "" → lower d2 ≠ "root" ∧ is_Some (tree self !! lower d2)).

(** The line of [f] at offset [b], if any, has a node of its own in the
    tree: one under its identifier that stores the offset [b]. *)
Definition settled (f : list Line) (self : Builder) (b : Z) : Prop :=
  ∀ l, l ∈ f → l_bytes l = b →
    ∃ t n a, l_fields l !! 0 = Some t ∧ tree self !! lower t = Some n ∧
             data n = Some a ∧ a_bytes a = b.

(** The retry loop has dealt with the deferred offsets before position
    [i]: each is settled or waits again at a later position. *)
Definition retried (f : list Line) (i : nat) (self : Builder) : Prop :=
  ∀ j b, j < i → faild_rows self !! j = Some b →
    settled f self b ∨ ∃ j', i ≤ j' ∧ faild_rows self !! j' = Some b.

(** The cached lineage of a node is the label of its parent followed by
    the lineage of the parent; directly under the root it is empty. *)
Definition lineage_content (t : gmap string Node) : Prop :=
  ∀ k n p pn, t !! k = Some n → predecessor n = Some p → t !! p = Some pn →
    (p = "root" → lineage n = [] ∧ lineage_ids n = []) ∧
    (p ≠ "root" →
       lineage n = tag pn :: lineage pn ∧
       lineage_ids n = get_id_or_default (data pn) 0 :: lineage_ids pn).

(** The nodes list holds every identifier of the tree but the root,
    once. *)
Definition nodes_ok (self : Builder) : Prop :=
  NoDup (nodes self) ∧
  (∀ k, k ∈ nodes self ↔ k ≠ "root" ∧ is_Some (tree self !! k)) ∧
  size (tree self) = S (length (nodes self)).

(** header, (A, , ), then (a, A, ): the second data row takes an
    identifier that is in use *)
Definition file_duplicate : list Line :=
  [ header_line;
    {| l_bytes := 45; l_fields := ["A"; ""; ""] |};
    {| l_bytes := 49; l_fields := ["a"; "A"; ""] |} ].

(** The lines [ls] come in an order that needs no retry, the
    identifiers in [seen] being in the tree already: every line has its
    three fields, a new identifier, and refers (through its accepted
    usage, or else through its parent field) only to an identifier seen
    before; an accepted usage is not the root. *)
Fixpoint in_order (seen : list string) (ls : list Line) : Prop :=
  match ls with
  | [] => True
  | l :: ls' =>
      ∃ t d1 d2,
        l_fields l !! 0 = Some t ∧ l_fields l !! 1 = Some d1 ∧
        l_fields l !! 2 = Some d2 ∧
        (lower t ∉ seen) ∧
        (d2 ≠ "" → (lower d2 ∈ seen) ∧ lower d2 ≠ "root") ∧
        (d2 = "" → d1 ≠ "" → lower d1 ∈ seen) ∧
        in_order (seen ++ [lower t]) ls'
  end.

(** The identifier a line gives its node. *)
Definition line_identifier (l : Line) : string :=
  match l_fields l !! 0 with
  | Some t => lower t
  | None => ""
  end.

(** ** Facts about strings and dictionaries *)

Lemma lower_ascii_idemp (c : ascii) : lower_ascii (lower_ascii c) = lower_ascii c.
Proof. destruct c as [[] [] [] [] [] [] [] []]; reflexivity. Qed.

Lemma lower_idemp (s : string) : lower (lower s) = lower s.
Proof.
  induction s as [|c s IH]; simpl; [reflexivity|].
  rewrite lower_ascii_idemp, IH. reflexivity.
Qed.

Lemma lower_length (s : string) : String.length (lower s) = String.length s.
Proof. induction s as [|c s IH]; simpl; congruence. Qed.

Lemma dict_set_fresh {V : Type} (d : list (string * V)) k v :
  k ∉ map fst d → dict_set d k v = d ++ [(k, v)].
Proof.
  induction d as [|[k' v'] d IH]; simpl; intros Hk; [reflexivity|].
  destruct (decide (k' = k)) as [->|Hne].
  - exfalso. apply Hk. left.
  - f_equal. apply IH. intros Hin. apply Hk. right. exact Hin.
Qed.

Lemma dict_fold_NoDup {V : Type} (l acc : list (string * V)) :
  NoDup (map fst (acc ++ l)) →
  fold_left (fun d kv => dict_set d (fst kv) (snd kv)) l acc = acc ++ l.
Proof.
  revert acc. induction l as [|[k v] l IH]; intros acc Hnd; simpl.
  - symmetry. apply app_nil_r.
  - assert (Hfresh : k ∉ map fst acc).
    { rewrite map_app in Hnd. apply NoDup_app in Hnd as (_ & Hdisj & _).
      intros Hin. apply (Hdisj k Hin). simpl. left. }
    rewrite (dict_set_fresh acc k v Hfresh).
    rewrite IH; rewrite <- app_assoc; [reflexivity | exact Hnd].
Qed.

(** Without a repeated key [dict] keeps the list as it is. *)
Lemma dict_NoDup {V : Type} (l : list (string * V)) :
  NoDup (map fst l) → dict l = l.
Proof. intros Hnd. unfold dict. rewrite dict_fold_NoDup; [reflexivity | exact Hnd]. Qed.

(** ** Facts about the tree *)

Lemma depth_is_inj t k d1 d2 : depth_is t k d1 → depth_is t k d2 → d1 = d2.
Proof.
  intros H1. revert d2. induction H1 as [k n Hk Hp | k n p d Hk Hp _ IH];
    intros d2 H2; inversion H2; subst; try congruence.
  f_equal. apply IH. congruence.
Qed.

Lemma depth_is_lookup t k d : depth_is t k d → is_Some (t !! k).
Proof. intros H; inversion H; eauto. Qed.

(** A node added under a fresh key changes no depth. *)
Lemma depth_is_insert t k n x d :
  t !! k = None → depth_is t x d → depth_is (<[k := n]> t) x d.
Proof.
  intros Hfresh H. induction H as [x m Hx Hp | x m p d Hx Hp _ IH].
  - eapply depth_top; [|exact Hp]. rewrite lookup_insert_ne; [exact Hx|congruence].
  - eapply depth_below; [|exact Hp|exact IH].
    rewrite lookup_insert_ne; [exact Hx|congruence].
Qed.

Lemma depth_is_new t k n p d :
  predecessor n = Some p → depth_is (<[k := n]> t) p d →
  depth_is (<[k := n]> t) k (S d).
Proof.
  intros Hp Hd. eapply depth_below; [apply lookup_insert_eq | exact Hp | exact Hd].
Qed.

Lemma tree_wf_root_only t k n :
  tree_wf t → t !! k = Some n → predecessor n = None → k = "root".
Proof.
  intros Hwf Hk Hp. destruct (decide (k = "root")) as [|Hne]; [assumption|].
  destruct (wf_pred t Hwf k n Hk Hne) as (p & Hp' & _). congruence.
Qed.

Lemma tree_wf_create_tree : tree_wf create_tree.
Proof.
  unfold create_tree. split.
  - apply lookup_singleton_eq.
  - intros k n Hk. apply lookup_singleton_Some in Hk as [<- <-]. split; reflexivity.
  - intros k n Hk Hne. apply lookup_singleton_Some in Hk as [<- _]. congruence.
  - intros k n Hk. apply lookup_singleton_Some in Hk as [<- <-].
    exists 0. split.
    + eapply depth_top; [apply lookup_singleton_eq | reflexivity].
    + rewrite map_size_singleton. lia.
Qed.

(** Adding a node under a fresh, lower-case key and an existing parent
    keeps the shape, whatever attributes the node carries. *)
Lemma tree_wf_insert t tg p a :
  tree_wf t → t !! lower tg = None → is_Some (t !! p) → p ≠ "" →
  lower p = p →
  tree_wf (<[ lower tg := {| tag := tg; identifier := lower tg;
                             predecessor := Some p; data := Some a |} ]> t).
Proof.
  intros Hwf Hfresh Hpar Hne Hlow.
  assert (Hpk : p ≠ lower tg) by (intros ->; destruct Hpar; congruence).
  split.
  - rewrite lookup_insert_ne; [apply (wf_root t Hwf)|].
    intros Heq. rewrite Heq, (wf_root t Hwf) in Hfresh. discriminate.
  - intros k n Hk. destruct (decide (lower tg = k)) as [<-|Hneq].
    + rewrite lookup_insert_eq in Hk. injection Hk as <-. split; reflexivity.
    + rewrite lookup_insert_ne in Hk by assumption. apply (wf_key t Hwf k n Hk).
  - intros k n Hk Hroot. destruct (decide (lower tg = k)) as [<-|Hneq].
    + rewrite lookup_insert_eq in Hk. injection Hk as <-. exists p.
      repeat split; try assumption.
      rewrite lookup_insert_ne by congruence. assumption.
    + rewrite lookup_insert_ne in Hk by assumption.
      destruct (wf_pred t Hwf k n Hk Hroot) as (q & Hq & Hin & Hq1 & Hq2).
      exists q. repeat split; try assumption.
      rewrite lookup_insert_ne; [assumption|].
      intros <-. destruct Hin; congruence.
  - intros k n Hk. rewrite map_size_insert_None by assumption.
    destruct (decide (lower tg = k)) as [<-|Hneq].
    + rewrite lookup_insert_eq in Hk. injection Hk as <-.
      destruct Hpar as [pn Hpn].
      destruct (wf_depth t Hwf p pn Hpn) as (d & Hd & Hlt).
      exists (S d). split; [|lia].
      eapply depth_is_new; [reflexivity|]. apply depth_is_insert; assumption.
    + rewrite lookup_insert_ne in Hk by assumption.
      destruct (wf_depth t Hwf k n Hk) as (d & Hd & Hlt).
      exists d. split; [|lia]. apply depth_is_insert; assumption.
Qed.

(** ** The lineage walk ends and lists the ancestors *)

Lemma get_parent_lookup t k n :
  t !! k = Some n →
  get_parent t k = match predecessor n with Some p => t !! p | None => None end.
Proof. intros Hk. unfold get_parent, parent. rewrite Hk. destruct (predecessor n); reflexivity. Qed.

Lemma classification_loop_None fuel t : classification_loop fuel t None = Some [].
Proof. destruct fuel; reflexivity. Qed.

Lemma classification_loop_spec t :
  tree_wf t →
  ∀ d k n fuel, depth_is t k d → t !! k = Some n → d < fuel →
    ∃ l, classification_loop fuel t (Some n) = Some l ∧
         length l = S d ∧
         NoDup (map fst l) ∧
         ∀ x, x ∈ map fst l → ∃ d', d' ≤ d ∧ depth_is t (lower x) d'.
Proof.
  intros Hwf. induction d as [|d IH]; intros k n fuel Hd Hk Hfuel;
    (destruct fuel as [|fuel]; [lia|]); simpl;
    destruct (wf_key t Hwf k n Hk) as [Hid Htag]; rewrite Hid;
    rewrite (get_parent_lookup t k n Hk);
    inversion Hd as [k0 n0 Hk0 Hp0 | k0 n0 p d0 Hk0 Hp0 Hdp]; subst;
    assert (n0 = n) by congruence; subst n0; rewrite Hp0.
  - rewrite classification_loop_None.
    exists [(tag n, get_id_or_default (data n) 0)]. simpl.
    repeat split; [apply NoDup_singleton|].
    intros x Hx. apply list_elem_of_singleton in Hx as ->.
    exists 0. split; [lia|]. rewrite Htag. exact Hd.
  - destruct (depth_is_lookup t p d Hdp) as [pn Hpn]. rewrite Hpn.
    destruct (IH p pn fuel Hdp Hpn ltac:(lia)) as (l & Hl & Hlen & Hnd & Hall).
    rewrite Hl. eexists. split; [reflexivity|]. simpl.
    split; [congruence|]. split.
    + apply NoDup_cons. split; [|exact Hnd].
      intros Hin. destruct (Hall _ Hin) as (d' & Hle & Hd').
      rewrite Htag in Hd'. pose proof (depth_is_inj _ _ _ _ Hd Hd'). lia.
    + intros x Hx. apply elem_of_cons in Hx as [->|Hx].
      * exists (S d). split; [lia|]. rewrite Htag. exact Hd.
      * destruct (Hall _ Hx) as (d' & Hle & Hd'). exists d'. split; [lia|exact Hd'].
Qed.

(** ** A call that adds a node keeps the builder well formed *)

Lemma sequence_id_Some_lookup self k i :
  sequence_id self k = Some i → is_Some (tree self !! k).
Proof. unfold sequence_id. destruct (tree self !! k); [eauto|discriminate]. Qed.

Lemma builder_wf_inserted self self' row taxonId p :
  builder_wf self → inserted self self' row taxonId p → builder_wf self'.
Proof.
  intros [Hwf Hlin [Hnum Hseq]] [Hfresh (Hpar & Hpne & Hplow) Hnode Hnodes Hcount Hfaild].
  destruct Hnode as (n & a & Htree & Htag & Hid & Hpred & Hdata & Hbytes & Haid & Hlen).
  assert (Hwf' : tree_wf (tree self')).
  { rewrite Htree. destruct n as [tg idn pr dt]; simpl in *; subst.
    apply tree_wf_insert; assumption. }
  split; [exact Hwf'| |].
  - intros k n0 d Hk Hroot Hd. rewrite Htree in Hk, Hd.
    destruct (decide (lower taxonId = k)) as [<-|Hneq].
    + rewrite lookup_insert_eq in Hk. injection Hk as <-.
      inversion Hd as [k0 m Hk0 Hp0 | k0 m q d0 Hk0 Hp0 Hdq]; subst;
        rewrite lookup_insert_eq in Hk0; injection Hk0 as <-; [congruence|].
      assert (q = p) by congruence; subst q.
      destruct Hpar as [pn Hpn].
      destruct (wf_depth _ Hwf p pn Hpn) as (dp & Hdp & _).
      pose proof (depth_is_insert _ _ n _ _ Hfresh Hdp) as Hdp'.
      pose proof (depth_is_inj _ _ _ _ Hdq Hdp'); subst d0.
      destruct (Hlen dp Hdp) as [-> ->]. split; reflexivity.
    + rewrite lookup_insert_ne in Hk by assumption.
      destruct (wf_depth _ Hwf k n0 Hk) as (d0 & Hd0 & _).
      pose proof (depth_is_insert _ _ n _ _ Hfresh Hd0) as Hd0'.
      pose proof (depth_is_inj _ _ _ _ Hd Hd0'); subst d0.
      apply (Hlin k n0 d Hk Hroot Hd0).
  - split.
    + rewrite Hcount, Hnodes, Hnum, length_app. simpl. lia.
    + intros i k Hi. rewrite Hnodes in Hi.
      apply lookup_app_Some in Hi as [Hi | [Hge Hi]].
      * destruct (Hseq i k Hi) as [Hroot Hsid]. split; [exact Hroot|].
        destruct (sequence_id_Some_lookup _ _ _ Hsid) as [m Hm].
        unfold sequence_id in *. rewrite Htree, lookup_insert_ne; [exact Hsid|].
        intros <-. congruence.
      * destruct (i - length (nodes self)) as [|j] eqn:Hj; [|destruct j; discriminate].
        simpl in Hi. injection Hi as <-. split.
        -- intros Heq. rewrite Heq, (wf_root _ Hwf) in Hfresh. discriminate.
        -- unfold sequence_id. rewrite Htree, lookup_insert_eq, Hdata, Haid.
           f_equal. lia.
Qed.

Lemma builder_wf_faild_rows_append self b :
  builder_wf self → builder_wf (faild_rows_append self b).
Proof.
  intros [Hwf Hlin Hnum]. unfold faild_rows_append.
  destruct (faild_rows_own self); split; assumption.
Qed.

Lemma builder_wf_init : builder_wf init.
Proof.
  split.
  - apply tree_wf_create_tree.
  - intros k n d Hk Hroot. simpl in Hk. unfold create_tree in Hk.
    apply lookup_singleton_Some in Hk as [<- _]. congruence.
  - split; [reflexivity|]. intros i k Hi. destruct i; discriminate.
Qed.

(** ** What the tree operations answer *)

Lemma removelast_length_pred {A : Type} (l : list A) :
  length (removelast l) = pred (length l).
Proof. rewrite removelast_firstn_len, length_take. lia. Qed.

Lemma removelast_NoDup_keys {V : Type} (l : list (string * V)) :
  NoDup (map fst l) → NoDup (map fst (removelast l)).
Proof.
  intros Hnd. rewrite removelast_firstn_len, <- firstn_map.
  exact (sublist_NoDup _ _ Hnd (sublist_take _ _)).
Qed.

Lemma set_num_read_rows_restore self :
  set_num_read_rows (set_num_read_rows self (num_read_rows self + 1)%Z)
    (num_read_rows (set_num_read_rows self (num_read_rows self + 1)%Z) - 1)%Z
  = self.
Proof.
  destruct self as [t n r ns fc fo]. unfold set_num_read_rows; simpl.
  f_equal. lia.
Qed.

(** The call raises, and leaves the builder as it found it, when the
    identifier is taken or the parent is missing. *)
Lemma add_node_to_tree_raises self tg par d :
  is_Some (tree self !! lower tg) ∨ tree self !! lower par = None →
  ∃ e, add_node_to_tree self tg par d = (Raised (Exception e), self).
Proof.
  intros Hcase. unfold add_node_to_tree, create_node.
  change (tree (set_num_read_rows self (num_read_rows self + 1)%Z))
    with (tree self).
  destruct (tree self !! lower tg) as [m|] eqn:Hk.
  - exists DuplicatedNodeIdError. rewrite set_num_read_rows_restore. reflexivity.
  - destruct Hcase as [[m Hm]|Hp]; [discriminate|]. rewrite Hp.
    exists NodeIDAbsentError. rewrite set_num_read_rows_restore. reflexivity.
Qed.

(** Otherwise it stores the node, with the next sequence id. *)
Lemma add_node_to_tree_returns self tg par d :
  tree self !! lower tg = None → is_Some (tree self !! lower par) →
  add_node_to_tree self tg par d =
    (Returned (attrs_set_id d (num_read_rows self + 1)%Z),
     nodes_append
       (set_tree (set_num_read_rows self (num_read_rows self + 1)%Z)
          (<[ lower tg := {| tag := tg; identifier := lower tg;
                             predecessor := Some (lower par);
                             data := Some (attrs_set_id d (num_read_rows self + 1)%Z) |} ]>
             (tree self)))
       (lower tg)).
Proof.
  intros Hk [pn Hp]. unfold add_node_to_tree, create_node.
  change (tree (set_num_read_rows self (num_read_rows self + 1)%Z))
    with (tree self).
  rewrite Hk, Hp. reflexivity.
Qed.

(** ** What [build_tree] does with a row, case by case *)

Lemma insert_under_root self row taxonId parentId :
  builder_wf self → String.length parentId = 0 →
  tree self !! lower taxonId = None →
  ∃ self', insert_under self row taxonId parentId = Some (Continue self') ∧
           inserted self self' row taxonId "root".
Proof.
  intros Hwf Hlen Hfresh. unfold insert_under. rewrite Hlen. simpl (0 <? 0).
  cbv iota.
  assert (Hroot : is_Some (tree self !! lower "root")).
  { change (lower "root") with "root". rewrite (wf_root _ (bwf_tree _ Hwf)). eauto. }
  rewrite (add_node_to_tree_returns self taxonId "root" _ Hfresh Hroot).
  eexists. split; [reflexivity|].
  change (lower "root") with "root" in *.
  split; simpl; try reflexivity; try assumption.
  - repeat split; [exact Hroot | discriminate].
  - eexists _, _. split; [reflexivity|]. simpl.
    repeat split; try reflexivity.
    all: inversion H as [k n Hk Hp | k n p d0 Hk Hp Hd0]; subst; try reflexivity;
      rewrite (wf_root _ (bwf_tree _ Hwf)) in Hk; injection Hk as <-; discriminate.
Qed.

Lemma insert_under_root_duplicate self row taxonId parentId :
  String.length parentId = 0 → is_Some (tree self !! lower taxonId) →
  ∃ e, insert_under self row taxonId parentId = Some (Abort e self).
Proof.
  intros Hlen Hdup. unfold insert_under. rewrite Hlen. simpl (0 <? 0). cbv iota.
  destruct (add_node_to_tree_raises self taxonId "root" (fresh_attrs row)
              (or_introl Hdup)) as (e & He).
  rewrite He. eauto.
Qed.

Lemma insert_under_deferred self row taxonId parentId :
  0 < String.length parentId →
  is_Some (tree self !! lower taxonId) ∨ tree self !! lower parentId = None →
  insert_under self row taxonId parentId =
    Some (Continue (faild_rows_append self (r_bytes row))).
Proof.
  intros Hlen Hcase. unfold insert_under.
  destruct (0 <? String.length parentId) eqn:Hlt;
    [|apply Nat.ltb_ge in Hlt; lia].
  destruct (add_node_to_tree_raises self taxonId parentId (fresh_attrs row) Hcase)
    as (e & He).
  rewrite He. reflexivity.
Qed.

Lemma insert_under_parent self row taxonId parentId :
  builder_wf self → 0 < String.length parentId →
  tree self !! lower taxonId = None →
  is_Some (tree self !! lower parentId) →
  ∃ self', insert_under self row taxonId parentId = Some (Continue self') ∧
           inserted self self' row taxonId (lower parentId).
Proof.
  intros Hwf Hlen Hfresh Hpar. unfold insert_under.
  destruct (0 <? String.length parentId) eqn:Hlt;
    [|apply Nat.ltb_ge in Hlt; lia].
  rewrite (add_node_to_tree_returns self taxonId parentId _ Hfresh Hpar).
  set (k := lower taxonId) in *. set (p := lower parentId) in *.
  set (a0 := attrs_set_id (fresh_attrs row) (num_read_rows self + 1)%Z).
  set (n0 := {| tag := taxonId; identifier := k; predecessor := Some p;
                data := Some a0 |}).
  set (t1 := <[ k := n0 ]> (tree self)).
  assert (Hpne : p ≠ "").
  { intros Hp. pose proof (lower_length parentId) as Hl. fold p in Hl.
    rewrite Hp in Hl. simpl in Hl. lia. }
  assert (Hplow : lower p = p) by apply lower_idemp.
  pose proof (bwf_tree _ Hwf) as Hwft.
  assert (Hwf1 : tree_wf t1) by (apply tree_wf_insert; assumption).
  destruct Hpar as [pn Hpn].
  assert (Hpk : k ≠ p) by (intros Heq; rewrite Heq in Hfresh; congruence).
  assert (Hpn1 : t1 !! p = Some pn).
  { unfold t1. rewrite lookup_insert_ne; assumption. }
  destruct (wf_depth _ Hwft p pn Hpn) as (dp & Hdp & Hsize).
  assert (Hdp1 : depth_is t1 p dp) by (apply depth_is_insert; assumption).
  assert (Hsz1 : dp < size t1).
  { unfold t1. rewrite map_size_insert_None by assumption. lia. }
  destruct (classification_loop_spec t1 Hwf1 dp p pn (size t1) Hdp1 Hpn1 Hsz1)
    as (l & Hl & Hlen1 & Hnd & _).
  unfold build_classification. simpl tree. fold t1.
  rewrite (get_parent_lookup t1 k n0) by apply lookup_insert_eq.
  simpl predecessor. cbv iota. rewrite Hpn1, Hl.
  destruct (0 <? length l) eqn:Hpos; [|apply Nat.ltb_ge in Hpos; lia].
  unfold update_node. fold k. unfold t1 at 1. rewrite lookup_insert_eq.
  eexists. split; [reflexivity|].
  split; simpl; try reflexivity; try assumption.
  - repeat split; eauto.
  - eexists _, _. split; [unfold t1; apply insert_insert_eq|].
    simpl. do 6 (split; [reflexivity|]).
    intros d Hd. pose proof (depth_is_inj _ _ _ _ Hd Hdp); subst d.
    unfold lineage, lineage_ids; simpl.
    rewrite (dict_NoDup _ (removelast_NoDup_keys l Hnd)).
    unfold keys, values.
    rewrite !length_map, removelast_length_pred, Hlen1. split; reflexivity.
Qed.

Lemma accepted_parent_absent self acc :
  fetch_node self acc = None → accepted_parent self acc = Raised AttributeError.
Proof. intros H. unfold accepted_parent. rewrite H. reflexivity. Qed.

Lemma accepted_parent_root self acc a :
  tree_wf (tree self) → fetch_node self acc = Some a → identifier a = "root" →
  accepted_parent self acc = Raised AttributeError.
Proof.
  intros Hwf Ha Hid. unfold accepted_parent. rewrite Ha, Hid.
  unfold parent. rewrite (wf_root _ Hwf). reflexivity.
Qed.

Lemma accepted_parent_found self acc a :
  tree_wf (tree self) → fetch_node self acc = Some a → identifier a ≠ "root" →
  ∃ p, predecessor a = Some p ∧ accepted_parent self acc = Returned p ∧
       is_Some (tree self !! p) ∧ p ≠ "" ∧ lower p = p.
Proof.
  intros Hwf Ha Hid. unfold accepted_parent. rewrite Ha.
  unfold fetch_node, get_node in Ha.
  destruct (wf_key _ Hwf _ _ Ha) as [Hida _].
  rewrite Hida in Hid |- *.
  destruct (wf_pred _ Hwf _ _ Ha Hid) as (p & Hp & [pn Hpn] & Hpne & Hplow).
  exists p. unfold parent. rewrite Ha, Hp, Hpn.
  destruct (wf_key _ Hwf _ _ Hpn) as [-> _]. eauto 10.
Qed.

(** The accepted-usage step either fails or names an existing parent. *)
Lemma accepted_parent_cases self acc :
  tree_wf (tree self) →
  (∃ e, accepted_parent self acc = Raised e) ∨
  (∃ p, accepted_parent self acc = Returned p ∧
        is_Some (tree self !! p) ∧ p ≠ "" ∧ lower p = p).
Proof.
  intros Hwf. destruct (fetch_node self acc) as [a|] eqn:Ha.
  - destruct (decide (identifier a = "root")) as [Hid|Hid].
    + left. eexists. eapply accepted_parent_root; eassumption.
    + right. destruct (accepted_parent_found self acc a Hwf Ha Hid)
        as (p & _ & Hret & Hrest). eauto.
  - left. eexists. apply accepted_parent_absent. assumption.
Qed.

Lemma nonempty_length (s : string) : s ≠ "" → 0 < String.length s.
Proof. destruct s; [congruence | simpl; lia]. Qed.

(** With a non-empty parent identifier the row is added or deferred. *)
Lemma insert_under_cases self row taxonId parentId :
  builder_wf self → 0 < String.length parentId →
  ∃ self', insert_under self row taxonId parentId = Some (Continue self') ∧
    (self' = faild_rows_append self (r_bytes row) ∨
     inserted self self' row taxonId (lower parentId)).
Proof.
  intros Hwf Hlen.
  destruct (tree self !! lower taxonId) as [m|] eqn:Hk.
  - eexists. split; [|left; reflexivity].
    apply insert_under_deferred; [assumption|]. left. rewrite Hk. eauto.
  - destruct (tree self !! lower parentId) as [pn|] eqn:Hp.
    + destruct (insert_under_parent self row taxonId parentId Hwf Hlen Hk)
        as (self' & Hcall & Hins); [rewrite Hp; eauto|]. eauto.
    + eexists. split; [|left; reflexivity].
      apply insert_under_deferred; [assumption|]. right. assumption.
Qed.

(** Every way a call of [build_tree] can end on a well-formed builder. *)
Lemma build_tree_cases self row :
  builder_wf self →
  ∃ o, build_tree self row = Some o ∧
    match o with
    | Abort _ self' => self' = self
    | Continue self' =>
        self' = self ∨ self' = faild_rows_append self (r_bytes row) ∨
        ∃ taxonId p, r_data row !! 0 = Some taxonId ∧
                     inserted self self' row taxonId p
    end.
Proof.
  intros Hwf. unfold build_tree.
  destruct (r_data row !! 0) as [taxonId|]; [|eexists; split; reflexivity].
  destruct (r_data row !! 1) as [data1|]; [|eexists; split; reflexivity].
  destruct (r_data row !! 2) as [data2|]; [|eexists; split; reflexivity].
  destruct (r_header row); [eexists; split; [reflexivity|left; reflexivity]|].
  destruct (0 <? String.length (lower data2)) eqn:Hacc.
  - destruct (accepted_parent_cases self (lower data2) (bwf_tree _ Hwf))
      as [[e He] | (p & Hp & Hin & Hpne & Hplow)].
    + rewrite He. eexists. split; [reflexivity|]. right. left. reflexivity.
    + rewrite Hp.
      destruct (insert_under_cases self row taxonId p Hwf (nonempty_length p Hpne))
        as (self' & Hcall & Hcase).
      rewrite Hcall. eexists. split; [reflexivity|].
      destruct Hcase as [->|Hins]; [right; left; reflexivity|].
      right. right. eauto.
  - destruct (0 <? String.length (lower data1)) eqn:Hpar.
    + apply Nat.ltb_lt in Hpar.
      destruct (insert_under_cases self row taxonId (lower data1) Hwf Hpar)
        as (self' & Hcall & Hcase).
      rewrite Hcall. eexists. split; [reflexivity|].
      destruct Hcase as [->|Hins]; [right; left; reflexivity|].
      right. right. eauto.
    + apply Nat.ltb_ge in Hpar.
      assert (Hzero : String.length (lower data1) = 0) by lia.
      destruct (tree self !! lower taxonId) as [m|] eqn:Hk.
      * destruct (insert_under_root_duplicate self row taxonId (lower data1) Hzero)
          as (e & He); [rewrite Hk; eauto|].
        rewrite He. eexists. split; reflexivity.
      * destruct (insert_under_root self row taxonId (lower data1) Hwf Hzero Hk)
          as (self' & Hcall & Hins).
        rewrite Hcall. eexists. split; [reflexivity|]. right. right. eauto.
Qed.

Lemma build_tree_wf self row self' :
  builder_wf self → build_tree self row = Some (Continue self') →
  builder_wf self'.
Proof.
  intros Hwf Hcall.
  destruct (build_tree_cases self row Hwf) as (o & Ho & Hcase).
  rewrite Hcall in Ho. injection Ho as <-.
  destruct Hcase as [->|[->|(taxonId & p & _ & Hins)]].
  - assumption.
  - apply builder_wf_faild_rows_append. assumption.
  - eapply builder_wf_inserted; eassumption.
Qed.

Lemma steps_wf self self' : builder_wf self → steps self self' → builder_wf self'.
Proof.
  intros Hwf Hsteps. induction Hsteps as [|self self1 self2 row _ IH Hcall];
    [assumption|].
  eapply build_tree_wf; [apply IH; assumption | eassumption].
Qed.

Lemma reachable_wf self : reachable self → builder_wf self.
Proof. apply steps_wf, builder_wf_init. Qed.

Lemma steps_trans self1 self2 self3 :
  steps self1 self2 → steps self2 self3 → steps self1 self3.
Proof.
  intros H12 H23. induction H23 as [|s s1 s2 row _ IH Hcall]; [assumption|].
  eapply steps_call; [apply IH; assumption | eassumption].
Qed.

(** ** Deferring and the passes of [processing] *)

Lemma faild_rows_append_spec self b :
  faild_rows (faild_rows_append self b) = faild_rows self ++ [b] ∧
  tree (faild_rows_append self b) = tree self ∧
  nodes (faild_rows_append self b) = nodes self ∧
  num_read_rows (faild_rows_append self b) = num_read_rows self.
Proof.
  unfold faild_rows, faild_rows_append.
  destruct (faild_rows_own self); simpl; repeat split; reflexivity.
Qed.

Lemma build_tree_extends self row self' :
  builder_wf self → build_tree self row = Some (Continue self') →
  (∀ k n, tree self !! k = Some n → tree self' !! k = Some n) ∧
  ∃ extra, nodes self' = nodes self ++ extra.
Proof.
  intros Hwf Hcall.
  destruct (build_tree_cases self row Hwf) as (o & Ho & Hcase).
  rewrite Hcall in Ho. injection Ho as <-.
  destruct Hcase as [->|[->|(taxonId & p & _ & Hins)]].
  - split; [auto|]. exists []. symmetry. apply app_nil_r.
  - destruct (faild_rows_append_spec self (r_bytes row)) as (_ & -> & -> & _).
    split; [auto|]. exists []. symmetry. apply app_nil_r.
  - destruct Hins as [Hfresh _ (n & a & Htree & _) Hnodes _ _]. split.
    + intros k m Hk. rewrite Htree, lookup_insert_ne; [assumption|].
      intros <-. congruence.
    + eauto.
Qed.

Lemma steps_extends self self' :
  builder_wf self → steps self self' →
  (∀ k n, tree self !! k = Some n → tree self' !! k = Some n) ∧
  ∃ extra, nodes self' = nodes self ++ extra.
Proof.
  intros Hwf Hsteps. induction Hsteps as [|self self1 self2 row Hs IH Hcall].
  - split; [auto|]. exists []. symmetry. apply app_nil_r.
  - destruct (IH Hwf) as [Htree (extra & Hnodes)].
    destruct (build_tree_extends self1 row self2 (steps_wf _ _ Hwf Hs) Hcall)
      as [Htree' (extra' & Hnodes')].
    split; [auto|]. exists (extra ++ extra').
    rewrite Hnodes', Hnodes, app_assoc. reflexivity.
Qed.

Lemma build_rows_steps rows : ∀ self self',
  build_rows self rows = Some (Continue self') → steps self self'.
Proof.
  induction rows as [|row rows IH]; intros self self' Hrun; simpl in Hrun.
  - injection Hrun as <-. apply steps_refl.
  - destruct (build_tree self row) as [[self1|e self1]|] eqn:Hcall;
      try discriminate.
    eapply steps_trans; [|apply IH; eassumption].
    eapply steps_call; [apply steps_refl | eassumption].
Qed.

Lemma retry_loop_steps f fuel : ∀ i self self',
  retry_loop fuel f i self = Some (Continue self') → steps self self'.
Proof.
  induction fuel as [|fuel IH]; intros i self self' Hrun; simpl in Hrun;
    destruct (faild_rows self !! i) as [b|]; try discriminate;
    try (injection Hrun as <-; apply steps_refl).
  destruct (build_rows self (read_seek 0 b f)) as [[self1|e self1]|] eqn:Hrows;
    try discriminate.
  eapply steps_trans; [eapply build_rows_steps; eassumption|].
  eapply IH; eassumption.
Qed.

(** On a well-formed builder a pass over rows always comes to an end. *)
Lemma build_rows_total rows : ∀ self,
  builder_wf self → ∃ o, build_rows self rows = Some o.
Proof.
  induction rows as [|row rows IH]; intros self Hwf; simpl; [eauto|].
  destruct (build_tree_cases self row Hwf) as (o & Ho & _). rewrite Ho.
  destruct o as [self1|e self1]; [|eauto].
  apply IH. eapply build_tree_wf; eassumption.
Qed.

(** A row without accepted usage whose parent is not in the tree is
    deferred. *)
Lemma build_tree_missing_parent self row taxonId data1 data2 :
  r_data row !! 0 = Some taxonId → r_data row !! 1 = Some data1 →
  r_data row !! 2 = Some data2 → r_header row = false →
  String.length data2 = 0 → 0 < String.length data1 →
  tree self !! lower data1 = None →
  build_tree self row = Some (Continue (faild_rows_append self (r_bytes row))).
Proof.
  intros H0 H1 H2 Hh Hacc Hpar Hmiss. unfold build_tree.
  rewrite H0, H1, H2, Hh, lower_length, Hacc. simpl (0 <? 0). cbv iota.
  apply insert_under_deferred.
  - rewrite lower_length. assumption.
  - right. rewrite lower_idemp. assumption.
Qed.

(** The retry loop on [file_orphan]: once every offset from position
    [i] on is that of the orphan row, no amount of fuel ends the loop. *)
Lemma retry_loop_orphan fuel : ∀ i self,
  tree self = create_tree →
  i < length (faild_rows self) →
  (∀ j, i ≤ j → j < length (faild_rows self) → faild_rows self !! j = Some 45%Z) →
  retry_loop fuel file_orphan i self = None.
Proof.
  induction fuel as [|fuel IH]; intros i self Htree Hlt Hall; simpl;
    rewrite (Hall i (le_n i) Hlt); [reflexivity|].
  change (read_seek 0 45 file_orphan)
    with [ {| r_data := ["B"; "Z"; ""]; r_bytes := 45%Z; r_line := 1%Z;
              r_header := false |} ].
  simpl build_rows.
  rewrite (build_tree_missing_parent self _ "B" "Z" "")
    by (try reflexivity; try (simpl; lia); rewrite Htree; reflexivity).
  simpl r_bytes.
  destruct (faild_rows_append_spec self 45%Z) as (Hf & Ht & _).
  apply IH.
  - rewrite Ht. assumption.
  - rewrite Hf, length_app. simpl. lia.
  - intros j Hij Hj. rewrite Hf in Hj |- *. rewrite length_app in Hj. simpl in Hj.
    destruct (decide (j < length (faild_rows self))) as [Hin|Hout].
    + rewrite lookup_app_l by assumption. apply Hall; [lia|assumption].
    + rewrite lookup_app_r by lia.
      replace (j - length (faild_rows self)) with 0 by lia. reflexivity.
Qed.

(** ** The claims *)

(** C1 (the code departs from the claim).  The claim: every deferred
    offset is retried exactly once, so the retry phase ends, and what
    fails again is dropped.  The code appends the offset of a row that
    fails again to the very list the retry loop is walking, so the row
    is retried again and again: on [file_orphan], whose only data row
    names a parent that is nowhere in the file, [processing] does not
    end, whatever the fuel. *)
Theorem retry_of_orphan_never_ends :
  ∀ fuel, processing fuel file_orphan init = None.
Proof.
  intros fuel. unfold processing.
  assert (Hfirst : build_rows init (read_stream 1 None 1 file_orphan)
                   = Some (Continue (faild_rows_append init 45%Z)))
    by (vm_compute; reflexivity).
  rewrite Hfirst.
  rewrite (retry_loop_orphan fuel 0 (faild_rows_append init 45%Z)); try reflexivity.
  - simpl. lia.
  - intros j _ Hj. simpl in Hj. destruct j; [reflexivity|lia].
Qed.

(** C2, as stated, fails: after the three rows A, B (parent A) and
    C (accepted usage B), the node of C hangs under A and its cached
    lineage is [A], not empty. *)
Lemma abc_lineage_of_c_is_not_empty :
  ∃ s n, processing 1 file_abc init = Some (Continue s) ∧
         tree s !! "c" = Some n ∧ predecessor n = Some "a" ∧
         lineage n = ["A"] ∧ lineage n ≠ [].
Proof.
  eexists _, _. split; [vm_compute; reflexivity|].
  split; [vm_compute; reflexivity|].
  split; [reflexivity|]. split; [reflexivity|]. discriminate.
Qed.

(** C2 (amended).  For the rows A, B (parent A), C (accepted usage B),
    in that order: A is under the synthetic root, B under A, and C under
    A as a sibling of B; the lineage of A is empty and the lineages of B
    and of C are both [A]. *)
Theorem abc_tree :
  ∀ fuel, ∃ s na nb nc,
    processing fuel file_abc init = Some (Continue s) ∧
    tree s !! "a" = Some na ∧ tree s !! "b" = Some nb ∧
    tree s !! "c" = Some nc ∧
    predecessor na = Some "root" ∧ predecessor nb = Some "a" ∧
    predecessor nc = Some "a" ∧
    lineage na = [] ∧ lineage nb = ["A"] ∧ lineage nc = ["A"] ∧
    nodes s = ["a"; "b"; "c"].
Proof.
  intros fuel.
  assert (Hrun : processing fuel file_abc init
                 = Some (Continue (faild_rows_reset after_abc))).
  { destruct fuel; vm_compute; reflexivity. }
  rewrite Hrun. eexists _, _, _, _. split; [reflexivity|].
  split; [vm_compute; reflexivity|].
  split; [vm_compute; reflexivity|].
  split; [vm_compute; reflexivity|].
  repeat split; reflexivity.
Qed.

Lemma tree_wf_pred_ne t k n :
  tree_wf t → t !! k = Some n → predecessor n ≠ Some k.
Proof.
  intros Hwf Hk Hp. destruct (wf_depth _ Hwf k n Hk) as (d & Hd & _).
  inversion Hd as [k0 m Hk0 Hp0 | k0 m q d0 Hk0 Hp0 Hdq]; subst;
    assert (m = n) by congruence; subst m; [congruence|].
  assert (q = k) by congruence; subst q.
  pose proof (depth_is_inj _ _ _ _ Hd Hdq). lia.
Qed.

Lemma inserted_lookup self self' row taxonId p :
  inserted self self' row taxonId p →
  ∃ n, tree self' !! lower taxonId = Some n ∧ tag n = taxonId ∧
       predecessor n = Some p ∧
       sequence_id self' (lower taxonId) = Some (num_read_rows self + 1)%Z.
Proof.
  intros [_ _ (n & a & Htree & Htag & _ & Hpred & Hdata & _ & Hid & _) _ _ _].
  exists n. unfold sequence_id. rewrite Htree, lookup_insert_eq, Hdata.
  repeat split; assumption.
Qed.

(** C3, as stated, fails in two ways.  The synthetic root is present
    in the tree, yet a record whose accepted usage is the root is
    deferred, because the root has no parent.  And a record whose
    accepted usage resolves is deferred all the same, and not inserted,
    when its own identifier is taken. *)
Lemma synonym_with_present_accepted_usage_deferred :
  let row1 := {| r_data := ["X"; ""; "root"]; r_bytes := 45%Z; r_line := 2%Z;
                 r_header := false |} in
  let row2 := {| r_data := ["B"; ""; "A"]; r_bytes := 59%Z; r_line := 5%Z;
                 r_header := false |} in
  (fetch_node init "root" = Some root_node ∧
   build_tree init row1 = Some (Continue (faild_rows_append init 45%Z)) ∧
   tree (faild_rows_append init 45%Z) !! "x" = None) ∧
  (is_Some (fetch_node after_abc "A") ∧
   build_tree after_abc row2
     = Some (Continue (faild_rows_append after_abc 59%Z)) ∧
   tree (faild_rows_append after_abc 59%Z) = tree after_abc).
Proof.
  repeat split; try (vm_compute; reflexivity).
  vm_compute. eauto.
Qed.

(** C3 (amended).  Take a data record with a non-empty accepted usage,
    met in a builder that a run has produced.  If the accepted-usage
    node is in the tree, is not the synthetic root, and the record's own
    identifier is still free, the record is inserted, keeping its label,
    with the parent of the accepted-usage node as its parent, which is
    not the accepted-usage node itself; nothing is deferred.  If the
    accepted-usage node is absent, or is the synthetic root, or the
    record's own identifier is taken, the call returns normally with
    the record's offset appended to the deferred offsets and the tree
    as it was. *)
Theorem synonym_takes_parent_of_accepted_usage
    self row taxonId data1 data2 :
  reachable self → r_header row = false →
  r_data row !! 0 = Some taxonId → r_data row !! 1 = Some data1 →
  r_data row !! 2 = Some data2 → 0 < String.length data2 →
  (∀ a, fetch_node self data2 = Some a → identifier a ≠ "root" →
        tree self !! lower taxonId = None →
        ∃ p self' n,
          predecessor a = Some p ∧
          build_tree self row = Some (Continue self') ∧
          tree self' !! lower taxonId = Some n ∧
          tag n = taxonId ∧ predecessor n = Some p ∧
          p ≠ identifier a ∧
          faild_rows self' = faild_rows self) ∧
  (fetch_node self data2 = None ∨
   (∃ a, fetch_node self data2 = Some a ∧ identifier a = "root") ∨
   is_Some (tree self !! lower taxonId) →
   build_tree self row
     = Some (Continue (faild_rows_append self (r_bytes row))) ∧
   tree (faild_rows_append self (r_bytes row)) = tree self ∧
   faild_rows (faild_rows_append self (r_bytes row))
     = faild_rows self ++ [r_bytes row]).
Proof.
  intros Hreach Hh H0 H1 H2 Hlen.
  pose proof (reachable_wf self Hreach) as Hwf.
  pose proof (bwf_tree _ Hwf) as Hwft.
  assert (Hfetch : fetch_node self (lower data2) = fetch_node self data2).
  { unfold fetch_node. rewrite lower_idemp. reflexivity. }
  assert (Hpos : (0 <? String.length (lower data2)) = true).
  { apply Nat.ltb_lt. rewrite lower_length. assumption. }
  assert (Hunfold : build_tree self row =
            match accepted_parent self (lower data2) with
            | Raised _ => Some (Continue (faild_rows_append self (r_bytes row)))
            | Returned parentId' => insert_under self row taxonId parentId'
            end).
  { unfold build_tree. rewrite H0, H1, H2, Hh, Hpos. reflexivity. }
  split.
  - intros a Ha Hroot Hfresh. rewrite <- Hfetch in Ha.
    destruct (accepted_parent_found self (lower data2) a Hwft Ha Hroot)
      as (p & Hpa & Hret & Hin & Hpne & Hplow).
    destruct (insert_under_parent self row taxonId p Hwf
                (nonempty_length p Hpne) Hfresh)
      as (self' & Hcall & Hins); [rewrite Hplow; assumption|].
    rewrite Hplow in Hins.
    destruct (inserted_lookup _ _ _ _ _ Hins) as (n & Hn & Htag & Hpn & _).
    exists p, self', n. rewrite Hunfold, Hret.
    repeat split; try assumption.
    + intros Heq. unfold fetch_node, get_node in Ha.
      destruct (wf_key _ Hwft _ _ Ha) as [Hida _].
      apply (tree_wf_pred_ne _ _ _ Hwft Ha). congruence.
    + apply (ins_faild _ _ _ _ _ Hins).
  - intros Hcase. destruct (faild_rows_append_spec self (r_bytes row))
      as (Hf & Ht & _).
    split; [|split; assumption].
    rewrite Hunfold. destruct Hcase as [Hnone | [(a & Ha & Hroot) | Hdup]].
    + rewrite accepted_parent_absent; [reflexivity|]. congruence.
    + rewrite (accepted_parent_root self (lower data2) a); try assumption;
        [reflexivity|congruence].
    + destruct (accepted_parent_cases self (lower data2) Hwft)
        as [[e He] | (p & Hp & _ & Hpne & _)]; rewrite ?He, ?Hp; [reflexivity|].
      apply insert_under_deferred; [apply nonempty_length; assumption|].
      left. assumption.
Qed.

Lemma synonym_takes_parent_of_accepted_usage_witness :
  ∃ p self' n,
    predecessor {| tag := "B"; identifier := "b"; predecessor := Some "a";
                   data := Some {| a_bytes := 49%Z; a_id := Some 2%Z;
                                   a_classification := Some ["A"];
                                   a_classification_ids := Some [1%Z] |} |}
      = Some p ∧
    build_tree after_ab row_c = Some (Continue self') ∧
    tree self' !! lower "C" = Some n ∧
    tag n = "C" ∧ predecessor n = Some p ∧ p ≠ "b" ∧
    faild_rows self' = faild_rows after_ab.
Proof.
  refine (proj1 (synonym_takes_parent_of_accepted_usage
                   after_ab row_c "C" "" "B" _ _ _ _ _ _) _ _ _ _).
  - apply (build_rows_steps (read_stream 1 None 1 (take 3 file_abc))).
    vm_compute. reflexivity.
  - reflexivity.
  - reflexivity.
  - reflexivity.
  - reflexivity.
  - simpl. lia.
  - vm_compute. reflexivity.
  - simpl. discriminate.
  - vm_compute. reflexivity.
Defined.

(** C4.  In every builder a run produces, a node other than the
    synthetic root lies at some depth [d] of at least one below the
    root; its cached lineage has [d - 1] labels, the lineage ids are as
    many, and the lineage is empty exactly when the node's parent is the
    synthetic root. *)
Theorem lineage_length_is_depth_minus_one self k n :
  reachable self → tree self !! k = Some n → k ≠ "root" →
  ∃ d, depth_is (tree self) k d ∧ 1 ≤ d ∧
       length (lineage n) = d - 1 ∧
       length (lineage_ids n) = length (lineage n) ∧
       (lineage n = [] ↔ predecessor n = Some "root").
Proof.
  intros Hreach Hk Hroot.
  destruct (reachable_wf self Hreach) as [Hwf Hlin _].
  destruct (wf_depth _ Hwf k n Hk) as (d & Hd & _).
  destruct (Hlin k n d Hk Hroot Hd) as [Hl Hi].
  exists d. split; [assumption|]. split; [lia|]. split; [lia|]. split; [lia|].
  assert (Hlen : length (lineage n) = d - 1) by lia.
  assert (Hpos : 1 ≤ d) by lia. clear Hl Hi.
  inversion Hd as [k0 m Hk0 Hp0 | k0 m p d0 Hk0 Hp0 Hdp]; subst; [lia|].
  assert (m = n) by congruence; subst m.
  split.
  - intros Hnil. rewrite Hnil in Hlen. simpl in Hlen.
    assert (d0 = 0) by lia; subst d0.
    inversion Hdp as [p0 pn Hpn Hpp | ]; subst.
    rewrite Hp0. f_equal. eapply tree_wf_root_only; eassumption.
  - intros Hp. rewrite Hp in Hp0. injection Hp0 as <-.
    assert (Hd0 : depth_is (tree self) "root" 0).
    { eapply depth_top; [apply (wf_root _ Hwf)|reflexivity]. }
    pose proof (depth_is_inj _ _ _ _ Hdp Hd0); subst d0.
    destruct (lineage n); [reflexivity|simpl in Hlen; lia].
Qed.

Lemma lineage_length_is_depth_minus_one_witness :
  ∃ d, depth_is (tree after_abc) "c" d ∧ 1 ≤ d ∧
       length ["A"] = d - 1 ∧
       length [1%Z] = length ["A"] ∧
       (["A"] = [] ↔ Some "a" = Some "root").
Proof.
  refine (lineage_length_is_depth_minus_one after_abc "c"
            {| tag := "C"; identifier := "c"; predecessor := Some "a";
               data := Some {| a_bytes := 54%Z; a_id := Some 3%Z;
                               a_classification := Some ["A"];
                               a_classification_ids := Some [1%Z] |} |}
            _ _ _).
  - apply (build_rows_steps (read_stream 1 None 1 file_abc)).
    vm_compute. reflexivity.
  - vm_compute. reflexivity.
  - discriminate.
Defined.

(** C5, as stated, fails: in [file_synonym_parent] the row C is
    inserted through its accepted usage B, and the later row D, which
    names C as its parent, is inserted under C. *)
Lemma synonym_becomes_parent :
  ∃ s nd,
    r_data row_c !! 2 = Some "B" ∧
    build_tree after_ab row_c = Some (Continue after_abc) ∧
    nodes after_abc = nodes after_ab ++ ["c"] ∧
    processing 1 file_synonym_parent init = Some (Continue s) ∧
    tree s !! "d" = Some nd ∧ predecessor nd = Some "c".
Proof.
  eexists _, _. split; [reflexivity|].
  split; [vm_compute; reflexivity|].
  split; [vm_compute; reflexivity|].
  split; [vm_compute; reflexivity|].
  split; [vm_compute; reflexivity|]. reflexivity.
Qed.

(** C5 (amended).  A row that is inserted through a non-empty accepted
    usage is placed as a sibling of the node its accepted usage resolved
    to: the two are different nodes with the same parent, and stay so in
    every builder the run goes on to produce.  (Nothing keeps a later
    row from naming the synonym as its parent.) *)
Theorem synonym_is_sibling_of_accepted_usage
    self row self' taxonId data2 :
  reachable self → build_tree self row = Some (Continue self') →
  r_header row = false →
  r_data row !! 0 = Some taxonId → r_data row !! 2 = Some data2 →
  0 < String.length data2 →
  tree self !! lower taxonId = None →
  is_Some (tree self' !! lower taxonId) →
  ∃ a p, fetch_node self data2 = Some a ∧ predecessor a = Some p ∧
         identifier a ≠ lower taxonId ∧
         ∀ self'', steps self' self'' →
           parent_id self'' (lower taxonId) = Some p ∧
           parent_id self'' (identifier a) = Some p.
Proof.
  intros Hreach Hcall Hh H0 H2 Hlen Hfresh Hnew.
  pose proof (reachable_wf self Hreach) as Hwf.
  pose proof (bwf_tree _ Hwf) as Hwft.
  pose proof (build_tree_wf _ _ _ Hwf Hcall) as Hwf'.
  assert (Hpos : (0 <? String.length (lower data2)) = true).
  { apply Nat.ltb_lt. rewrite lower_length. assumption. }
  assert (Hstay : ∀ x, x = faild_rows_append self (r_bytes row) →
                       Some (Continue x) = Some (Continue self') → False).
  { intros x -> Heq. injection Heq as <-.
    destruct (faild_rows_append_spec self (r_bytes row)) as (_ & Ht & _).
    rewrite Ht, Hfresh in Hnew. destruct Hnew; discriminate. }
  pose proof Hcall as Hcall0.
  unfold build_tree in Hcall. rewrite H0, H2, Hh, Hpos in Hcall.
  destruct (r_data row !! 1) as [data1|]; [|discriminate].
  assert (Hfetch : fetch_node self (lower data2) = fetch_node self data2).
  { unfold fetch_node. rewrite lower_idemp. reflexivity. }
  destruct (fetch_node self (lower data2)) as [a|] eqn:Ha.
  2: { rewrite (accepted_parent_absent _ _ Ha) in Hcall.
       exfalso. eapply Hstay; [reflexivity|eassumption]. }
  destruct (decide (identifier a = "root")) as [Hroot|Hroot].
  { rewrite (accepted_parent_root _ _ a Hwft Ha Hroot) in Hcall.
    exfalso. eapply Hstay; [reflexivity|eassumption]. }
  destruct (accepted_parent_found self (lower data2) a Hwft Ha Hroot)
    as (p & Hpa & Hret & Hin & Hpne & Hplow).
  rewrite Hret in Hcall.
  destruct (insert_under_parent self row taxonId p Hwf
              (nonempty_length p Hpne) Hfresh)
    as (s1 & Hcall1 & Hins); [rewrite Hplow; assumption|].
  rewrite Hcall1 in Hcall. injection Hcall as <-. rewrite Hplow in Hins.
  destruct (inserted_lookup _ _ _ _ _ Hins) as (n & Hn & _ & Hpn & _).
  unfold fetch_node, get_node in Ha.
  destruct (wf_key _ Hwft _ _ Ha) as [Hida _].
  exists a, p. split; [symmetry; assumption|]. split; [assumption|].
  split; [intros Heq; rewrite <- Heq, Hida in Hfresh; congruence|].
  intros self'' Hsteps.
  destruct (steps_extends s1 self'' Hwf' Hsteps) as [Hkeep _].
  destruct (build_tree_extends self row s1 Hwf Hcall0) as [Hkeep1 _].
  unfold parent_id.
  rewrite (Hkeep _ _ Hn), Hida, (Hkeep _ _ (Hkeep1 _ _ Ha)). split; assumption.
Qed.

Lemma synonym_is_sibling_of_accepted_usage_witness :
  ∃ a p, fetch_node after_ab "B" = Some a ∧ predecessor a = Some p ∧
         identifier a ≠ lower "C" ∧
         ∀ self'', steps after_abc self'' →
           parent_id self'' (lower "C") = Some p ∧
           parent_id self'' (identifier a) = Some p.
Proof.
  refine (synonym_is_sibling_of_accepted_usage
            after_ab row_c after_abc "C" "B" _ _ _ _ _ _ _ _).
  - apply (build_rows_steps (read_stream 1 None 1 (take 3 file_abc))).
    vm_compute. reflexivity.
  - vm_compute. reflexivity.
  - reflexivity.
  - reflexivity.
  - reflexivity.
  - simpl. lia.
  - vm_compute. reflexivity.
  - vm_compute. eexists. reflexivity.
Defined.

(** C6.  When the identifier is already in the tree, or the parent
    identifier is not, [add_node_to_tree] raises an [Exception] (which
    the [except Exception] of the resolver catches) and leaves the
    builder exactly as it found it: same tree, same nodes list, same
    [num_read_rows]. *)
Theorem add_node_to_tree_failure_changes_nothing self tg par d :
  is_Some (tree self !! lower tg) ∨ tree self !! lower par = None →
  ∃ e, fst (add_node_to_tree self tg par d) = Raised (Exception e) ∧
       tree (snd (add_node_to_tree self tg par d)) = tree self ∧
       nodes (snd (add_node_to_tree self tg par d)) = nodes self ∧
       num_read_rows (snd (add_node_to_tree self tg par d))
         = num_read_rows self ∧
       snd (add_node_to_tree self tg par d) = self.
Proof.
  intros Hcase.
  destruct (add_node_to_tree_raises self tg par d Hcase) as (e & He).
  exists e. rewrite He. simpl. repeat split; reflexivity.
Qed.

Lemma add_node_to_tree_failure_changes_nothing_witness :
  ∃ e, fst (add_node_to_tree after_abc "A" "nowhere" (fresh_attrs row_c))
         = Raised (Exception e) ∧
       tree (snd (add_node_to_tree after_abc "A" "nowhere" (fresh_attrs row_c)))
         = tree after_abc ∧
       nodes (snd (add_node_to_tree after_abc "A" "nowhere" (fresh_attrs row_c)))
         = nodes after_abc ∧
       num_read_rows
         (snd (add_node_to_tree after_abc "A" "nowhere" (fresh_attrs row_c)))
         = num_read_rows after_abc ∧
       snd (add_node_to_tree after_abc "A" "nowhere" (fresh_attrs row_c))
         = after_abc.
Proof.
  apply (add_node_to_tree_failure_changes_nothing
           after_abc "A" "nowhere" (fresh_attrs row_c)).
  left. vm_compute. eexists. reflexivity.
Defined.

Lemma sequence_id_kept self self' k i :
  (∀ k n, tree self !! k = Some n → tree self' !! k = Some n) →
  sequence_id self k = Some i → sequence_id self' k = Some i.
Proof.
  intros Hkeep Hid. unfold sequence_id in *.
  destruct (tree self !! k) as [n|] eqn:Hk; [|discriminate].
  rewrite (Hkeep _ _ Hk). assumption.
Qed.

(** C7.  In every builder a run produces, the node added as the
    [i]-th (counting from 0) carries the sequence id [i + 1]: ids start
    at 1 and grow by one with every insertion.  And when [processing]
    ends, the nodes of the first pass come first in the nodes list, keep
    their ids, and every node added in the retry pass has a larger id
    than every node of the first pass. *)
Theorem sequence_ids_follow_processing_order :
  (∀ self, reachable self →
     ∀ i k, nodes self !! i = Some k →
       sequence_id self k = Some (Z.of_nat i + 1)%Z) ∧
  (∀ fuel f self1 self2,
     build_rows init (read_stream 1 None 1 f) = Some (Continue self1) →
     processing fuel f init = Some (Continue self2) →
     ∃ retried, nodes self2 = nodes self1 ++ retried ∧
       ∀ k k', k ∈ nodes self1 → k' ∈ retried →
         ∃ a b, sequence_id self1 k = Some a ∧ sequence_id self2 k = Some a ∧
                sequence_id self2 k' = Some b ∧ (a < b)%Z).
Proof.
  split.
  - intros self Hreach i k Hi.
    destruct (reachable_wf self Hreach) as [_ _ [_ Hseq]].
    apply (Hseq i k Hi).
  - intros fuel f self1 self2 Hfirst Hrun. unfold processing in Hrun.
    rewrite Hfirst in Hrun.
    destruct (retry_loop fuel f 0 self1) as [[s2|e s2]|] eqn:Hretry;
      try discriminate.
    injection Hrun as <-.
    assert (Hwf1 : builder_wf self1).
    { apply reachable_wf. eapply build_rows_steps. eassumption. }
    pose proof (retry_loop_steps _ _ _ _ _ Hretry) as Hsteps.
    destruct (steps_extends _ _ Hwf1 Hsteps) as [Hkeep (retried & Hnodes)].
    destruct (steps_wf _ _ Hwf1 Hsteps) as [_ _ [_ Hseq2]].
    destruct Hwf1 as [_ _ [_ Hseq1]].
    exists retried. split; [exact Hnodes|].
    intros k k' Hk Hk'.
    apply list_elem_of_lookup in Hk as [i Hi].
    apply list_elem_of_lookup in Hk' as [j Hj].
    destruct (Hseq1 i k Hi) as [_ Ha].
    assert (Hj2 : nodes s2 !! (length (nodes self1) + j) = Some k').
    { rewrite Hnodes, lookup_app_r by lia.
      replace (length (nodes self1) + j - length (nodes self1)) with j by lia.
      assumption. }
    destruct (Hseq2 _ _ Hj2) as [_ Hb].
    eexists _, _. split; [exact Ha|].
    split; [exact (sequence_id_kept self1 s2 k _ Hkeep Ha)|].
    split; [exact Hb|].
    apply lookup_lt_Some in Hi. lia.
Qed.

Lemma sequence_ids_follow_processing_order_witness :
  sequence_id after_abc "b" = Some (Z.of_nat 1 + 1)%Z ∧
  ∃ retried,
    nodes (continued (processing 2 file_forward init))
      = nodes (continued (build_rows init (read_stream 1 None 1 file_forward)))
        ++ retried ∧
    ∀ k k',
      k ∈ nodes (continued (build_rows init (read_stream 1 None 1 file_forward))) →
      k' ∈ retried →
      ∃ a b,
        sequence_id
          (continued (build_rows init (read_stream 1 None 1 file_forward))) k
          = Some a ∧
        sequence_id (continued (processing 2 file_forward init)) k = Some a ∧
        sequence_id (continued (processing 2 file_forward init)) k' = Some b ∧
        (a < b)%Z.
Proof.
  split.
  - apply (proj1 sequence_ids_follow_processing_order after_abc).
    + apply (build_rows_steps (read_stream 1 None 1 file_abc)).
      vm_compute. reflexivity.
    + reflexivity.
  - apply (proj2 sequence_ids_follow_processing_order 2 file_forward).
    + vm_compute. reflexivity.
    + vm_compute. reflexivity.
Defined.

Lemma build_tree_short_row self row :
  length (r_data row) < 3 → build_tree self row = Some (Abort IndexError self).
Proof.
  intros Hlen. unfold build_tree.
  destruct (r_data row) as [|x0 [|x1 [|x2 rest]]]; simpl in *;
    try reflexivity; lia.
Qed.

Lemma build_rows_short_row rows : ∀ self,
  builder_wf self →
  (∃ row, row ∈ rows ∧ length (r_data row) < 3) →
  ∃ e self', build_rows self rows = Some (Abort e self').
Proof.
  induction rows as [|row rows IH]; intros self Hwf (bad & Hin & Hshort).
  - apply elem_of_nil in Hin. contradiction.
  - simpl. apply elem_of_cons in Hin as [->|Hin].
    + rewrite (build_tree_short_row self row Hshort). eauto.
    + destruct (build_tree_cases self row Hwf) as (o & Ho & _). rewrite Ho.
      destruct o as [self1|e self1]; [|eauto].
      apply IH; [eapply build_tree_wf; eassumption | eauto].
Qed.

(** C8, as stated, fails: [file_short] has a line with two fields
    only; the run is aborted by an [IndexError], whatever the fuel, and
    the line is not among the deferred offsets. *)
Lemma short_line_aborts_the_run :
  ∃ self, (∀ fuel, processing fuel file_short init
                   = Some (Abort IndexError self)) ∧
          faild_rows self = [] ∧ nodes self = ["a"].
Proof.
  eexists. split; [intros fuel; vm_compute; reflexivity|].
  split; reflexivity.
Qed.

(** C8 (amended).  A record with fewer than three fields is not
    handled: reading the three fixed positions raises [IndexError],
    which [build_tree] does not catch, with the builder untouched (the
    record is neither deferred nor inserted); and a run whose first pass
    meets such a record does not return normally but is left by an
    exception. *)
Theorem short_record_raises_IndexError :
  (∀ self row, length (r_data row) < 3 →
     build_tree self row = Some (Abort IndexError self)) ∧
  (∀ fuel f row, row ∈ read_stream 1 None 1 f → length (r_data row) < 3 →
     ∃ e self, processing fuel f init = Some (Abort e self)).
Proof.
  split; [exact build_tree_short_row|].
  intros fuel f row Hin Hshort. unfold processing.
  destruct (build_rows_short_row (read_stream 1 None 1 f) init builder_wf_init)
    as (e & self & Hrun); [eauto|].
  rewrite Hrun. eauto.
Qed.

Lemma short_record_raises_IndexError_witness :
  build_tree after_abc
    {| r_data := ["B"; "A"]; r_bytes := 49%Z; r_line := 3%Z; r_header := false |}
    = Some (Abort IndexError after_abc) ∧
  ∃ e self, processing 0 file_short init = Some (Abort e self).
Proof.
  split.
  - apply (proj1 short_record_raises_IndexError). simpl. lia.
  - apply (proj2 short_record_raises_IndexError 0 file_short
             {| r_data := ["B"; "A"]; r_bytes := 49%Z; r_line := 3%Z;
                r_header := false |}).
    + vm_compute. apply list_elem_of_further, list_elem_of_further, list_elem_of_here.
    + simpl. lia.
Defined.

Lemma retry_loop_more_fuel f fuel : ∀ fuel' i self o,
  retry_loop fuel f i self = Some o → fuel ≤ fuel' →
  retry_loop fuel' f i self = Some o.
Proof.
  induction fuel as [|fuel IH]; intros fuel' i self o Hrun Hle;
    destruct fuel' as [|fuel']; simpl in *; try lia;
    destruct (faild_rows self !! i) as [b|]; try discriminate; try assumption.
  destruct (build_rows self (read_seek 0 b f)) as [[self1|e self1]|];
    try assumption.
  apply IH; [assumption|lia].
Qed.

Lemma processing_more_fuel f fuel fuel' self o :
  processing fuel f self = Some o → fuel ≤ fuel' →
  processing fuel' f self = Some o.
Proof.
  unfold processing. intros Hrun Hle.
  destruct (build_rows self (read_stream 1 None 1 f)) as [[self1|e self1]|];
    try assumption.
  destruct (retry_loop fuel f 0 self1) as [o1|] eqn:Hretry;
    [|discriminate].
  rewrite (retry_loop_more_fuel f fuel fuel' 0 self1 o1 Hretry Hle).
  assumption.
Qed.







(** C10.  In every builder a run produces: [fetch_node] answers the
    same for a string and for its lower-cased form; every identifier in
    the tree is lower-case, is the lower-cased label of its node, and
    the parent identifier stored with a node is lower-case; and a call
    of [build_tree] that adds a node stores it under the lower-cased
    taxon id field with the field itself, unchanged, as its label. *)
Theorem identifier_lookup_is_case_insensitive self :
  reachable self →
  (∀ s, fetch_node self s = fetch_node self (lower s)) ∧
  (∀ k n, tree self !! k = Some n →
     lower k = k ∧ identifier n = k ∧ lower (tag n) = k ∧
     ∀ p, predecessor n = Some p → lower p = p) ∧
  (∀ row self' taxonId,
     build_tree self row = Some (Continue self') →
     r_data row !! 0 = Some taxonId → nodes self' ≠ nodes self →
     nodes self' = nodes self ++ [lower taxonId] ∧
     ∃ n, tree self' !! lower taxonId = Some n ∧ tag n = taxonId).
Proof.
  intros Hreach. pose proof (reachable_wf self Hreach) as Hwf.
  pose proof (bwf_tree _ Hwf) as Hwft.
  split; [|split].
  - intros s. unfold fetch_node. rewrite lower_idemp. reflexivity.
  - intros k n Hk. destruct (wf_key _ Hwft k n Hk) as [Hid Htag].
    split; [rewrite <- Htag; apply lower_idemp|].
    split; [assumption|]. split; [assumption|].
    intros p Hp. destruct (decide (k = "root")) as [->|Hroot].
    + rewrite (wf_root _ Hwft) in Hk. injection Hk as <-. discriminate.
    + destruct (wf_pred _ Hwft k n Hk Hroot) as (q & Hq & _ & _ & Hlow).
      congruence.
  - intros row self' taxonId Hcall H0 Hnew.
    destruct (build_tree_cases self row Hwf) as (o & Ho & Hcase).
    rewrite Hcall in Ho. injection Ho as <-.
    destruct Hcase as [->|[->|(taxonId' & p & H0' & Hins)]].
    + congruence.
    + destruct (faild_rows_append_spec self (r_bytes row)) as (_ & _ & Hn & _).
      congruence.
    + assert (taxonId' = taxonId) by congruence; subst taxonId'.
      split; [apply (ins_nodes _ _ _ _ _ Hins)|].
      destruct (inserted_lookup _ _ _ _ _ Hins) as (n & Hn & Htag & _).
      eauto.
Qed.

Lemma identifier_lookup_is_case_insensitive_witness :
  fetch_node after_abc "B" = fetch_node after_abc (lower "B") ∧
  nodes after_abc = nodes after_ab ++ [lower "C"] ∧
  ∃ n, tree after_abc !! lower "C" = Some n ∧ tag n = "C".
Proof.
  pose proof (identifier_lookup_is_case_insensitive after_ab) as Hab.
  pose proof (identifier_lookup_is_case_insensitive after_abc) as Habc.
  split.
  - apply Habc.
    apply (build_rows_steps (read_stream 1 None 1 file_abc)).
    vm_compute. reflexivity.
  - refine (proj2 (proj2 (Hab _)) row_c after_abc "C" _ _ _).
    + apply (build_rows_steps (read_stream 1 None 1 (take 3 file_abc))).
      vm_compute. reflexivity.
    + vm_compute. reflexivity.
    + reflexivity.
    + vm_compute. discriminate.
Defined.

(** * Further properties of the code *)

(** ** Quoting, column names, batches *)

Lemma double_quotes_body s :
  sql_literal_body (double_quotes s +:+ "'") = Some s.
Proof.
  induction s as [|c s IH]; [reflexivity|]. simpl.
  destruct (Ascii.eqb c "'") eqn:Hc; simpl; rewrite Hc.
  - rewrite IH. apply Ascii.eqb_eq in Hc. subst c. reflexivity.
  - rewrite IH. reflexivity.
Qed.

(** X1.  [quote_string_for_db] writes its argument as one SQL string
    literal: read back as a literal, the text gives the argument again,
    whatever quotes it contains. *)
Theorem quote_string_for_db_round_trip s :
  sql_literal_value (quote_string_for_db s) = Some s.
Proof. unfold quote_string_for_db. simpl. apply double_quotes_body. Qed.

Lemma alnum_lower c :
  is_alnum c = true →
  is_digit (lower_ascii c) || is_lower_letter (lower_ascii c) = true.
Proof. destruct c as [[] [] [] [] [] [] [] []]; vm_compute; intros H; congruence. Qed.

Lemma lower_alnum_fixed c :
  is_digit c || is_lower_letter c = true →
  is_alnum c = true ∧ lower_ascii c = c.
Proof.
  destruct c as [[] [] [] [] [] [] [] []]; vm_compute; intros H;
    first [discriminate | split; reflexivity].
Qed.

Lemma underscore_only c :
  is_digit c || is_lower_letter c = false → Ascii.eqb c "_" = true →
  c = "_"%char.
Proof. intros _ H. apply Ascii.eqb_eq in H. exact H. Qed.

Lemma slugged_slug_gen s : ∀ b, slugged b (lower (sub_runs b s)) = true.
Proof.
  induction s as [|c s IH]; intros b; [reflexivity|]. simpl.
  destruct (is_alnum c) eqn:Hc.
  - simpl. rewrite (alnum_lower c Hc). apply IH.
  - destruct b; [apply IH|]. simpl. apply IH.
Qed.

Lemma slug_fixes_slugged s : ∀ b, slugged b s = true → lower (sub_runs b s) = s.
Proof.
  induction s as [|c s IH]; intros b Hs; [reflexivity|]. simpl in Hs.
  destruct (is_digit c || is_lower_letter c) eqn:Hc.
  - destruct (lower_alnum_fixed c Hc) as [Ha Hl]. simpl. rewrite Ha. simpl.
    rewrite Hl, (IH false Hs). reflexivity.
  - destruct (Ascii.eqb c "_") eqn:Hu; [|discriminate].
    apply Ascii.eqb_eq in Hu. subst c.
    apply andb_true_iff in Hs as [Hb Hs]. destruct b; [discriminate|].
    simpl. rewrite (IH true Hs). reflexivity.
Qed.

Lemma lower_alnum_ascii c :
  is_digit c || is_lower_letter c = true → is_ascii c = true.
Proof.
  destruct c as [[] [] [] [] [] [] [] []]; vm_compute; intros H;
    first [discriminate | reflexivity].
Qed.

Lemma slugged_ascii_only s : ∀ b, slugged b s = true → ascii_only s = true.
Proof.
  induction s as [|c s IH]; intros b Hs; [reflexivity|]. simpl in *.
  destruct (is_digit c || is_lower_letter c) eqn:Hc.
  - rewrite (lower_alnum_ascii c Hc), (IH false Hs). reflexivity.
  - destruct (Ascii.eqb c "_") eqn:Hu; [|discriminate].
    apply Ascii.eqb_eq in Hu. subst c.
    apply andb_true_iff in Hs as [_ Hs]. rewrite (IH true Hs). reflexivity.
Qed.

Lemma slug_ascii s :
  ascii_only s = true → slug s = Some (lower (sub_runs false s)).
Proof. intros H. unfold slug. rewrite H. reflexivity. Qed.

(** X2.  For a string of ASCII characters [slug] gives a string of
    lower-case letters, digits and single underscores; it leaves such
    strings, and only such strings, as they are, so that applying it to
    its own result changes nothing. *)
Theorem slug_normal_form s :
  ascii_only s = true →
  ∃ r, slug s = Some r ∧ slugged false r = true ∧ slug r = Some r ∧
       (r = s ↔ slugged false s = true).
Proof.
  intros Hs. exists (lower (sub_runs false s)).
  pose proof (slugged_slug_gen s false) as Hr.
  split; [apply slug_ascii; assumption|]. split; [assumption|]. split.
  - rewrite (slug_ascii _ (slugged_ascii_only _ _ Hr)).
    f_equal. apply slug_fixes_slugged. assumption.
  - split.
    + intros <-. assumption.
    + apply slug_fixes_slugged.
Qed.

Lemma string_app_cons x (a b : string) : String x a +:+ b = String x (a +:+ b).
Proof. reflexivity. Qed.

Lemma string_app_nil_l (b : string) : "" +:+ b = b.
Proof. reflexivity. Qed.

Lemma string_app_assoc (a b c : string) : (a +:+ b) +:+ c = a +:+ (b +:+ c).
Proof.
  induction a as [|x a IH]; [reflexivity|].
  rewrite !string_app_cons, IH. reflexivity.
Qed.

Lemma string_app_nil_r (a : string) : a +:+ "" = a.
Proof.
  induction a as [|x a IH]; [reflexivity|].
  rewrite string_app_cons, IH. reflexivity.
Qed.

Lemma join_app (l1 l2 : list string) : join (l1 ++ l2) = join l1 +:+ join l2.
Proof.
  induction l1 as [|x l1 IH]; simpl; [reflexivity|].
  rewrite IH, string_app_assoc. reflexivity.
Qed.

Lemma save_loop_join statements : ∀ i acc,
  join (save_loop i acc statements) = acc +:+ join statements.
Proof.
  induction statements as [|st rest IH]; intros i acc; cbn [save_loop join].
  - rewrite string_app_nil_r.
    destruct acc; [reflexivity|]. cbn. rewrite string_app_nil_r. reflexivity.
  - destruct ((0 <? i) && (i mod 100 =? 0)); cbn [join].
    + rewrite IH, string_app_nil_l, string_app_assoc. reflexivity.
    + rewrite IH, string_app_assoc. reflexivity.
Qed.

Lemma save_loop_first statements : ∀ i acc,
  i ≤ 100 → 101 - i ≤ length statements →
  ∃ later, save_loop i acc statements
           = (acc +:+ join (take (101 - i) statements)) :: later.
Proof.
  induction statements as [|st rest IH]; intros i acc Hi Hlen;
    cbn [save_loop length] in *; [lia|].
  destruct (decide (i = 100)) as [->|Hne].
  - eexists. change (101 - 100) with 1. cbn [take join].
    rewrite string_app_nil_r. reflexivity.
  - assert (Hcond : (0 <? i) && (i mod 100 =? 0) = false).
    { destruct i as [|i]; [reflexivity|].
      rewrite Nat.mod_small by lia. reflexivity. }
    rewrite Hcond.
    destruct (IH (S i) (acc +:+ st) ltac:(lia) ltac:(lia)) as (later & Hl).
    exists later. rewrite Hl.
    replace (101 - i) with (S (101 - S i)) by lia. cbn [take join].
    rewrite string_app_assoc. reflexivity.
Qed.

(** X3.  The batches that [save_to_database] submits, put end to end
    in the order of submission, are the statements put end to end:
    nothing is lost, repeated or reordered.  With more than a hundred
    statements the first batch holds the first 101 of them. *)
Theorem save_batches_content statements :
  join (save_batches statements) = join statements ∧
  (101 ≤ length statements →
   ∃ later, save_batches statements = join (take 101 statements) :: later).
Proof.
  split.
  - unfold save_batches. rewrite save_loop_join. reflexivity.
  - intros Hlen. unfold save_batches.
    destruct (save_loop_first statements 0 "" ltac:(lia) ltac:(simpl; lia))
      as (later & Hl).
    exists later. rewrite Hl. reflexivity.
Qed.

Lemma dict_get_dict_set {V : Type} (d : list (string * V)) k v k' :
  dict_get (dict_set d k v) k' =
  if decide (k = k') then Some v else dict_get d k'.
Proof.
  induction d as [|[k0 v0] d IH]; simpl.
  - reflexivity.
  - destruct (decide (k0 = k)) as [->|Hne]; simpl.
    + destruct (decide (k = k')); reflexivity.
    + destruct (decide (k0 = k')) as [->|Hne'].
      * destruct (decide (k = k')); [congruence|reflexivity].
      * apply IH.
Qed.

Lemma dict_get_fold {V : Type} (l : list (string * V)) : ∀ acc k,
  dict_get (fold_left (fun d kv => dict_set d (fst kv) (snd kv)) l acc) k =
  match dict_get (rev l) k with
  | Some v => Some v
  | None => dict_get acc k
  end.
Proof.
  induction l as [|[k0 v0] l IH]; intros acc k; simpl; [reflexivity|].
  rewrite IH, dict_get_dict_set.
  assert (Happ : ∀ (l1 l2 : list (string * V)),
            dict_get (l1 ++ l2) k =
            match dict_get l1 k with Some v => Some v | None => dict_get l2 k end).
  { intros l1 l2. induction l1 as [|[k1 v1] l1 IH1]; simpl; [reflexivity|].
    destruct (decide (k1 = k)); [reflexivity|apply IH1]. }
  rewrite Happ. destruct (dict_get (rev l) k); [reflexivity|]. simpl.
  destruct (decide (k0 = k)); reflexivity.
Qed.

Lemma dict_get_dict {V : Type} (l : list (string * V)) k :
  dict_get (dict l) k = dict_get (rev l) k.
Proof. unfold dict. rewrite dict_get_fold. destruct (dict_get (rev l) k); reflexivity. Qed.

Lemma dict_get_app {V : Type} (l1 l2 : list (string * V)) k :
  dict_get (l1 ++ l2) k =
  match dict_get l1 k with Some v => Some v | None => dict_get l2 k end.
Proof.
  induction l1 as [|[k1 v1] l1 IH]; simpl; [reflexivity|].
  destruct (decide (k1 = k)); [reflexivity|apply IH].
Qed.

Lemma dict_get_rev_last {V : Type} (l : list (string * V)) : ∀ i k v,
  l !! i = Some (k, v) →
  (∀ j v', i < j → l !! j ≠ Some (k, v')) →
  dict_get (rev l) k = Some v.
Proof.
  induction l as [|[k0 v0] l IH] using rev_ind; intros i k v Hi Hlater.
  - destruct i; discriminate.
  - rewrite rev_app_distr. simpl.
    destruct (decide (i = length l)) as [->|Hne].
    + rewrite (list_lookup_middle l [] (k0, v0) (length l) eq_refl) in Hi.
      injection Hi as -> ->. destruct (decide (k = k)); [reflexivity|congruence].
    + assert (Hlt : i < length l).
      { apply lookup_lt_Some in Hi. rewrite length_app in Hi. simpl in Hi. lia. }
      rewrite lookup_app_l in Hi by assumption.
      destruct (decide (k0 = k)) as [->|Hk].
      * exfalso. apply (Hlater (length l) v0 Hlt).
        apply (list_lookup_middle l [] (k, v0) (length l) eq_refl).
      * apply (IH i k v Hi). intros j v' Hj Hl.
        apply (Hlater j v' Hj). apply lookup_app_l_Some. assumption.
Qed.

Lemma keys_dict_set_NoDup {V : Type} (d : list (string * V)) k v :
  NoDup (keys d) → NoDup (keys (dict_set d k v)).
Proof.
  intros Hnd. destruct (decide (k ∈ keys d)) as [Hin|Hout].
  - assert (Hsame : keys (dict_set d k v) = keys d).
    { clear Hnd. induction d as [|[k0 v0] d IH]; simpl in *.
      - apply elem_of_nil in Hin. contradiction.
      - destruct (decide (k0 = k)) as [->|Hne]; simpl; [reflexivity|].
        f_equal. apply IH. apply elem_of_cons in Hin as [?|?]; [congruence|assumption]. }
    rewrite Hsame. assumption.
  - rewrite dict_set_fresh by assumption. unfold keys in *.
    rewrite map_app. simpl. apply NoDup_app. repeat split; try assumption.
    + intros x Hx Hx'. apply list_elem_of_singleton in Hx'. congruence.
    + apply NoDup_singleton.
Qed.

Lemma keys_dict_NoDup {V : Type} (l : list (string * V)) : NoDup (keys (dict l)).
Proof.
  unfold dict.
  assert (Hgen : ∀ acc : list (string * V), NoDup (keys acc) →
            NoDup (keys (fold_left (fun d kv => dict_set d (fst kv) (snd kv)) l acc))).
  { induction l as [|[k v] l IH]; intros acc Hacc; simpl; [assumption|].
    apply IH, keys_dict_set_NoDup, Hacc. }
  apply Hgen. apply NoDup_nil_2.
Qed.

(** X4.  [combine] pairs the column names with the fields of the row
    read again for the node; each name occurs once in the result, and a
    name borne by several columns carries the field of the last of them
    (among the columns the row has). *)
Theorem combine_later_column_wins self f headers nid raw node i h v :
  fetch_node_extended self f nid = inr (RawAndNode raw node) →
  headers !! i = Some h → r_data raw !! i = Some v →
  (∀ j, i < j → j < length (r_data raw) → headers !! j ≠ Some h) →
  ∃ d, combine self f headers nid = inr d ∧ NoDup (keys d) ∧
       dict_get d h = Some v.
Proof.
  intros Hfetch Hh Hv Hlater. unfold combine. rewrite Hfetch.
  eexists. split; [reflexivity|]. split; [apply keys_dict_NoDup|].
  rewrite dict_get_dict. apply (dict_get_rev_last _ i).
  - rewrite lookup_zip_with, Hh, Hv. reflexivity.
  - intros j v' Hj Hz. rewrite lookup_zip_with in Hz.
    destruct (headers !! j) as [h'|] eqn:Hh'; [|discriminate]. simpl in Hz.
    destruct (r_data raw !! j) as [v''|] eqn:Hv'; [|discriminate]. simpl in Hz.
    injection Hz as -> ->.
    apply (Hlater j Hj); [eapply lookup_lt_Some; eassumption|assumption].
Qed.

Lemma read_stream_spec header f : ∀ latest n,
  NoDup (map l_bytes f) →
  (∀ b, latest = Some b → b ∉ map l_bytes f) →
  length (read_stream header latest n f) = length f ∧
  ∀ i l, f !! i = Some l →
    read_stream header latest n f !! i =
      Some {| r_data := l_fields l; r_bytes := l_bytes l;
              r_line := (n + Z.of_nat i)%Z;
              r_header := (n + Z.of_nat i <=? header)%Z |}.
Proof.
  induction f as [|l0 f IH]; intros latest n Hnd Hlatest.
  - split; [reflexivity|]. intros i l Hi. destruct i; discriminate.
  - simpl in Hnd. apply NoDup_cons in Hnd as [Hout Hnd]. simpl.
    destruct (decide (latest = Some (l_bytes l0))) as [Heq|Hne].
    { exfalso. apply (Hlatest _ Heq). simpl. left. }
    destruct (IH (Some (l_bytes l0)) (n + 1)%Z Hnd) as [Hlen Hrows].
    { intros b Hb. injection Hb as <-. assumption. }
    split; [simpl; rewrite Hlen; reflexivity|].
    intros i l Hi. destruct i as [|i].
    + simpl in Hi. injection Hi as <-. simpl. rewrite Z.add_0_r. reflexivity.
    + simpl in Hi.
      replace (n + Z.of_nat (S i))%Z with (n + 1 + Z.of_nat i)%Z by lia.
      apply (Hrows i l Hi).
Qed.

Lemma find_offset f : ∀ l,
  NoDup (map l_bytes f) → l ∈ f →
  List.find (fun l' => bool_decide (l_bytes l' = l_bytes l)) f = Some l.
Proof.
  induction f as [|l0 f IH]; intros l Hnd Hin.
  - apply elem_of_nil in Hin. contradiction.
  - simpl in Hnd. apply NoDup_cons in Hnd as [Hout Hnd]. simpl.
    apply elem_of_cons in Hin as [->|Hin].
    + rewrite bool_decide_eq_true_2 by reflexivity. reflexivity.
    + rewrite bool_decide_eq_false_2; [apply IH; assumption|].
      intros Heq. apply Hout. rewrite Heq.
      apply list_elem_of_In, in_map, list_elem_of_In. assumption.
Qed.

Lemma read_streams_every_line_once_aux header f :
  NoDup (map l_bytes f) →
  length (read_stream header None 1 f) = length f ∧
  ∀ i l, f !! i = Some l →
    read_stream header None 1 f !! i =
      Some {| r_data := l_fields l; r_bytes := l_bytes l;
              r_line := (1 + Z.of_nat i)%Z;
              r_header := (1 + Z.of_nat i <=? header)%Z |}.
Proof. intros Hnd. apply read_stream_spec; [assumption|discriminate]. Qed.

(** X5.  Over lines that start at different offsets, streaming
    [read] yields every line once and in order: the row of the [i]-th
    line (from 0) has the fields and the offset of the line, the line
    number [i + 1], and is a header exactly when that number is at most
    [header]. *)
Theorem read_streams_every_line_once header f :
  NoDup (map l_bytes f) →
  length (read_stream header None 1 f) = length f ∧
  ∀ i l, f !! i = Some l →
    read_stream header None 1 f !! i =
      Some {| r_data := l_fields l; r_bytes := l_bytes l;
              r_line := (1 + Z.of_nat i)%Z;
              r_header := (1 + Z.of_nat i <=? header)%Z |}.
Proof. intros Hnd. apply read_stream_spec; [assumption|discriminate]. Qed.

(** X6.  Over lines that start at different offsets, [read] with
    [seek_bytes] at the offset where a line starts yields that line
    alone, whichever line of the file it is, as line number 1 (so as a
    data row unless [header] is at least 1), with the offset asked for
    as its [bytes]. *)
Theorem read_seek_one_line header f l :
  NoDup (map l_bytes f) → l ∈ f →
  read_seek header (l_bytes l) f =
    [ {| r_data := l_fields l; r_bytes := l_bytes l; r_line := 1%Z;
         r_header := (1 <=? header)%Z |} ].
Proof.
  intros Hnd Hin. unfold read_seek. rewrite (find_offset f l Hnd Hin).
  reflexivity.
Qed.

(** X7.  In every builder a run produces, the node [root] is the
    synthetic root, and every other node has a parent that is in the
    tree and is another node, one level nearer to the root: following
    parents from any node reaches the root. *)
Theorem tree_is_rooted self k n :
  reachable self → tree self !! k = Some n →
  (k = "root" ∧ n = root_node) ∨
  (k ≠ "root" ∧
   ∃ p pn d, predecessor n = Some p ∧ tree self !! p = Some pn ∧ p ≠ k ∧
             depth_is (tree self) p d ∧ depth_is (tree self) k (S d)).
Proof.
  intros Hreach Hk. pose proof (bwf_tree _ (reachable_wf self Hreach)) as Hwf.
  destruct (decide (k = "root")) as [->|Hroot].
  - left. split; [reflexivity|]. rewrite (wf_root _ Hwf) in Hk. congruence.
  - right. split; [assumption|].
    destruct (wf_pred _ Hwf k n Hk Hroot) as (p & Hp & [pn Hpn] & _).
    destruct (wf_depth _ Hwf p pn Hpn) as (d & Hd & _).
    exists p, pn, d. repeat split; try assumption.
    + intros ->. apply (tree_wf_pred_ne _ _ _ Hwf Hk). assumption.
    + eapply depth_below; eassumption.
Qed.

Lemma faild_rows_build_tree self row self' :
  builder_wf self → build_tree self row = Some (Continue self') →
  ∃ extra, faild_rows self' = faild_rows self ++ extra.
Proof.
  intros Hwf Hcall.
  destruct (build_tree_cases self row Hwf) as (o & Ho & Hcase).
  rewrite Hcall in Ho. injection Ho as <-.
  destruct Hcase as [->|[->|(taxonId & p & _ & Hins)]].
  - exists []. symmetry. apply app_nil_r.
  - destruct (faild_rows_append_spec self (r_bytes row)) as (-> & _). eauto.
  - exists []. rewrite (ins_faild _ _ _ _ _ Hins). symmetry. apply app_nil_r.
Qed.

Lemma faild_rows_steps self self' :
  builder_wf self → steps self self' →
  ∃ extra, faild_rows self' = faild_rows self ++ extra.
Proof.
  intros Hwf Hsteps. induction Hsteps as [|self self1 self2 row Hs IH Hcall].
  - exists []. symmetry. apply app_nil_r.
  - destruct (IH Hwf) as (extra & Heq).
    destruct (faild_rows_build_tree self1 row self2 (steps_wf _ _ Hwf Hs) Hcall)
      as (extra' & Heq').
    exists (extra ++ extra'). rewrite Heq', Heq, app_assoc. reflexivity.
Qed.

(** X8.  A run only adds: from one builder of a run to a later one,
    every node is kept exactly as it was (label, parent, attributes
    with the cached lineage), the nodes list and the deferred offsets
    are extended at the end, and [num_read_rows] does not decrease. *)
Theorem run_only_adds self self' :
  reachable self → steps self self' →
  (∀ k n, tree self !! k = Some n → tree self' !! k = Some n) ∧
  (∃ extra, nodes self' = nodes self ++ extra) ∧
  (∃ extra, faild_rows self' = faild_rows self ++ extra) ∧
  (num_read_rows self ≤ num_read_rows self')%Z.
Proof.
  intros Hreach Hsteps. pose proof (reachable_wf self Hreach) as Hwf.
  destruct (steps_extends self self' Hwf Hsteps) as [Hkeep (extra & Hnodes)].
  split; [assumption|]. split; [eauto|].
  split; [apply faild_rows_steps; assumption|].
  destruct (bwf_numbering _ Hwf) as [Hn _].
  destruct (bwf_numbering _ (steps_wf _ _ Hwf Hsteps)) as [Hn' _].
  rewrite Hn, Hn', Hnodes, length_app. lia.
Qed.

Lemma nodes_ok_init : nodes_ok init.
Proof.
  split; [apply NoDup_nil_2|]. split.
  - intros k. split.
    + intros Hin. apply elem_of_nil in Hin. contradiction.
    + intros [Hne [n Hn]]. simpl in Hn. unfold create_tree in Hn.
      apply lookup_singleton_Some in Hn as [<- _]. congruence.
  - simpl. unfold create_tree. rewrite map_size_singleton. reflexivity.
Qed.

Lemma nodes_ok_build_tree self row self' :
  builder_wf self → build_tree self row = Some (Continue self') →
  nodes_ok self → nodes_ok self'.
Proof.
  intros Hwf Hcall (Hnd & Hmem & Hsize). unfold nodes_ok.
  destruct (build_tree_cases self row Hwf) as (o & Ho & Hcase).
  rewrite Hcall in Ho. injection Ho as <-.
  destruct Hcase as [->|[->|(taxonId & p & _ & Hins)]].
  - auto.
  - destruct (faild_rows_append_spec self (r_bytes row)) as (_ & -> & -> & _).
    auto.
  - destruct Hins as [Hfresh _ (n & a & Htree & _) Hnodes _ _].
    assert (Hroot : lower taxonId ≠ "root").
    { intros Heq. rewrite Heq, (wf_root _ (bwf_tree _ Hwf)) in Hfresh.
      discriminate. }
    rewrite Hnodes, Htree. split; [|split].
    + apply NoDup_app. split; [assumption|]. split; [|apply NoDup_singleton].
      intros x Hx Hx'. apply list_elem_of_singleton in Hx' as ->.
      apply Hmem in Hx as [_ [m Hm]]. congruence.
    + intros k. rewrite elem_of_app, list_elem_of_singleton, Hmem.
      destruct (decide (lower taxonId = k)) as [<-|Hne].
      * rewrite lookup_insert_eq. split; [eauto|]. intros _. right. reflexivity.
      * rewrite lookup_insert_ne by assumption. split.
        -- intros [?|?]; [assumption|congruence].
        -- intros ?. left. assumption.
    + rewrite map_size_insert_None by assumption.
      rewrite length_app, Hsize. simpl. lia.
Qed.

Lemma nodes_ok_steps self self' :
  steps self self' → builder_wf self → nodes_ok self → nodes_ok self'.
Proof.
  intros Hsteps. induction Hsteps as [|self self1 self2 row Hs IH Hcall];
    intros Hwf Hok; [assumption|].
  eapply nodes_ok_build_tree; [|eassumption|apply IH; assumption].
  apply (steps_wf _ _ Hwf Hs).
Qed.

(** X9.  In every builder a run produces, the nodes list holds the
    identifiers of the tree other than [root], each once, and
    [num_read_rows] is their number. *)
Theorem nodes_list_is_the_tree self :
  reachable self →
  NoDup (nodes self) ∧
  (∀ k, k ∈ nodes self ↔ k ≠ "root" ∧ is_Some (tree self !! k)) ∧
  size (tree self) = S (length (nodes self)) ∧
  num_read_rows self = Z.of_nat (length (nodes self)).
Proof.
  intros Hreach.
  destruct (nodes_ok_steps init self Hreach builder_wf_init nodes_ok_init)
    as (H1 & H2 & H3).
  split; [assumption|]. split; [assumption|]. split; [assumption|].
  apply (bwf_numbering _ (reachable_wf self Hreach)).
Qed.

(** ** The cached lineage, label by label *)

(** A node added under a fresh key is not met by walks that start at
    nodes of the old tree. *)
Lemma classification_loop_insert t k n :
  tree_wf t → t !! k = None →
  ∀ d x nx fuel, depth_is t x d → t !! x = Some nx →
    classification_loop fuel (<[k := n]> t) (Some nx)
    = classification_loop fuel t (Some nx).
Proof.
  intros Hwf Hfresh. induction d as [|d IH]; intros x nx fuel Hd Hx;
    (destruct fuel as [|fuel]; [reflexivity|]); simpl;
    destruct (wf_key t Hwf x nx Hx) as [Hid _]; rewrite Hid;
    assert (Hxk : k ≠ x) by (intros ->; congruence);
    rewrite (get_parent_lookup t x nx Hx);
    rewrite (get_parent_lookup (<[k := n]> t) x nx)
      by (rewrite lookup_insert_ne; assumption);
    inversion Hd as [x0 n0 Hx0 Hp0 | x0 n0 p d0 Hx0 Hp0 Hdp]; subst;
    assert (n0 = nx) by congruence; subst n0; rewrite Hp0.
  - rewrite !classification_loop_None. reflexivity.
  - destruct (depth_is_lookup t p d Hdp) as [pn Hpn].
    assert (Hpk : k ≠ p) by (intros ->; congruence).
    rewrite lookup_insert_ne, Hpn by assumption.
    rewrite (IH p pn fuel Hdp Hpn). reflexivity.
Qed.

Lemma removelast_cons {A : Type} (x : A) (l : list A) :
  l ≠ [] → removelast (x :: l) = x :: removelast l.
Proof. destruct l; [congruence|reflexivity]. Qed.

(** Under [lineage_content], the walk from a node lists the label of
    the node and then what the node has cached. *)
Lemma classification_loop_lineage t :
  tree_wf t → lineage_content t →
  ∀ d k n fuel, depth_is t k d → t !! k = Some n → d < fuel →
    ∃ l, classification_loop fuel t (Some n) = Some l ∧ l ≠ [] ∧
         map fst (removelast l)
           = (if decide (k = "root") then [] else tag n :: lineage n) ∧
         map snd (removelast l)
           = (if decide (k = "root") then []
              else get_id_or_default (data n) 0 :: lineage_ids n).
Proof.
  intros Hwf Hlin. induction d as [|d IH]; intros k n fuel Hd Hk Hfuel;
    (destruct fuel as [|fuel]; [lia|]); simpl;
    destruct (wf_key t Hwf k n Hk) as [Hid Htag]; rewrite Hid;
    rewrite (get_parent_lookup t k n Hk);
    inversion Hd as [k0 n0 Hk0 Hp0 | k0 n0 p d0 Hk0 Hp0 Hdp]; subst;
    assert (n0 = n) by congruence; subst n0; rewrite Hp0.
  - rewrite classification_loop_None. eexists. split; [reflexivity|].
    split; [discriminate|].
    rewrite (tree_wf_root_only t _ n Hwf Hk Hp0). simpl. split; reflexivity.
  - destruct (depth_is_lookup t p d Hdp) as [pn Hpn]. rewrite Hpn.
    destruct (IH p pn fuel Hdp Hpn ltac:(lia)) as (l & Hl & Hne & Hfst & Hsnd).
    rewrite Hl. eexists. split; [reflexivity|]. split; [discriminate|].
    rewrite (removelast_cons _ l Hne). simpl. rewrite Hfst, Hsnd.
    assert (Hroot : identifier n ≠ "root").
    { intros Heq. rewrite Heq, (wf_root _ Hwf) in Hk. injection Hk as <-.
      discriminate. }
    destruct (decide (identifier n = "root")) as [|_]; [contradiction|].
    destruct (Hlin _ n p pn Hk Hp0 Hpn) as [Hr Hnr].
    destruct (decide (p = "root")) as [Hp|Hp].
    + destruct (Hr Hp) as [-> ->]. split; reflexivity.
    + destruct (Hnr Hp) as [-> ->]. split; reflexivity.
Qed.

Lemma lineage_content_insert t k n p pn :
  tree_wf t → lineage_content t → t !! k = None → t !! p = Some pn →
  predecessor n = Some p →
  (p = "root" → lineage n = [] ∧ lineage_ids n = []) →
  (p ≠ "root" →
     lineage n = tag pn :: lineage pn ∧
     lineage_ids n = get_id_or_default (data pn) 0 :: lineage_ids pn) →
  lineage_content (<[k := n]> t).
Proof.
  intros Hwf Hlin Hfresh Hp Hpred Hr Hnr x nx q qn Hx Hq Hqn.
  assert (Hpk : k ≠ p) by (intros ->; congruence).
  destruct (decide (k = x)) as [<-|Hkx].
  - rewrite lookup_insert_eq in Hx. injection Hx as <-.
    assert (q = p) by congruence; subst q.
    rewrite lookup_insert_ne in Hqn by assumption.
    assert (qn = pn) by congruence; subst qn. split; assumption.
  - rewrite lookup_insert_ne in Hx by assumption.
    assert (Hxroot : x ≠ "root").
    { intros ->. rewrite (wf_root _ Hwf) in Hx. injection Hx as <-.
      discriminate. }
    destruct (wf_pred _ Hwf x nx Hx Hxroot) as (q' & Hq' & [qn' Hqn'] & _).
    assert (q' = q) by congruence; subst q'.
    assert (Hkq : k ≠ q) by (intros ->; congruence).
    rewrite lookup_insert_ne in Hqn by assumption.
    apply (Hlin x nx q qn Hx Hq Hqn).
Qed.

Lemma insert_under_parent_tree self row taxonId parentId pn :
  builder_wf self → 0 < String.length parentId →
  tree self !! lower taxonId = None →
  tree self !! lower parentId = Some pn →
  ∃ l self',
    classification_loop (S (size (tree self))) (tree self) (Some pn) = Some l ∧
    NoDup (map fst l) ∧
    insert_under self row taxonId parentId = Some (Continue self') ∧
    tree self' =
      <[ lower taxonId :=
           {| tag := taxonId; identifier := lower taxonId;
              predecessor := Some (lower parentId);
              data := Some {| a_bytes := r_bytes row;
                              a_id := Some (num_read_rows self + 1)%Z;
                              a_classification := Some (map fst (removelast l));
                              a_classification_ids :=
                                Some (map snd (removelast l)) |} |} ]>
        (tree self).
Proof.
  intros Hwf Hlen Hfresh Hpn. unfold insert_under.
  destruct (0 <? String.length parentId) eqn:Hlt;
    [|apply Nat.ltb_ge in Hlt; lia].
  rewrite (add_node_to_tree_returns self taxonId parentId _ Hfresh)
    by (rewrite Hpn; eauto).
  set (k := lower taxonId) in *. set (p := lower parentId) in *.
  set (a0 := attrs_set_id (fresh_attrs row) (num_read_rows self + 1)%Z).
  set (n0 := {| tag := taxonId; identifier := k; predecessor := Some p;
                data := Some a0 |}).
  set (t1 := <[ k := n0 ]> (tree self)).
  pose proof (bwf_tree _ Hwf) as Hwft.
  assert (Hpk : k ≠ p) by (intros Heq; rewrite Heq in Hfresh; congruence).
  assert (Hpn1 : t1 !! p = Some pn).
  { unfold t1. rewrite lookup_insert_ne; assumption. }
  destruct (wf_depth _ Hwft p pn Hpn) as (dp & Hdp & Hsize).
  destruct (classification_loop_spec (tree self) Hwft dp p pn
              (S (size (tree self))) Hdp Hpn ltac:(lia))
    as (l & Hl & Hlen1 & Hnd & _).
  exists l. eexists. split; [exact Hl|]. split; [exact Hnd|].
  unfold build_classification. simpl tree. fold t1.
  rewrite (get_parent_lookup t1 k n0) by apply lookup_insert_eq.
  simpl predecessor. cbv iota. rewrite Hpn1.
  assert (Hsz : size t1 = S (size (tree self))).
  { unfold t1. apply map_size_insert_None. assumption. }
  rewrite Hsz. unfold t1 at 1.
  rewrite (classification_loop_insert (tree self) k n0 Hwft Hfresh dp p pn _ Hdp Hpn).
  rewrite Hl.
  destruct (0 <? length l) eqn:Hpos; [|apply Nat.ltb_ge in Hpos; lia].
  unfold update_node. fold k. unfold t1 at 1. rewrite lookup_insert_eq.
  split; [reflexivity|]. simpl. unfold t1. rewrite insert_insert_eq.
  rewrite (dict_NoDup _ (removelast_NoDup_keys l Hnd)). reflexivity.
Qed.

Lemma insert_under_lineage_content self row taxonId parentId self' :
  builder_wf self → lineage_content (tree self) →
  insert_under self row taxonId parentId = Some (Continue self') →
  lineage_content (tree self').
Proof.
  intros Hwf Hlin Hcall. pose proof (bwf_tree _ Hwf) as Hwft.
  destruct (faild_rows_append_spec self (r_bytes row)) as (_ & Htsame & _).
  destruct (tree self !! lower taxonId) as [m|] eqn:Hk.
  - destruct (decide (0 < String.length parentId)) as [Hlen|Hlen].
    + rewrite (insert_under_deferred self row taxonId parentId Hlen) in Hcall
        by (left; rewrite Hk; eauto).
      injection Hcall as <-. rewrite Htsame. assumption.
    + destruct (insert_under_root_duplicate self row taxonId parentId
                  ltac:(lia) ltac:(rewrite Hk; eauto)) as (e & He).
      congruence.
  - destruct (decide (0 < String.length parentId)) as [Hlen|Hlen].
    + destruct (tree self !! lower parentId) as [pn|] eqn:Hp.
      * destruct (insert_under_parent_tree self row taxonId parentId pn
                    Hwf Hlen Hk Hp) as (l & s1 & Hl & Hnd & Hcall1 & Htree).
        rewrite Hcall1 in Hcall. injection Hcall as <-. rewrite Htree.
        destruct (wf_depth _ Hwft _ pn Hp) as (dp & Hdp & Hsize).
        destruct (classification_loop_lineage (tree self) Hwft Hlin dp _ pn
                    (S (size (tree self))) Hdp Hp ltac:(lia))
          as (l' & Hl' & _ & Hfst & Hsnd).
        assert (l' = l) by congruence; subst l'.
        eapply lineage_content_insert; try eassumption; try reflexivity;
          unfold lineage, lineage_ids; simpl; rewrite Hfst, Hsnd;
          intros Hroot; destruct (decide (lower parentId = "root"));
          try contradiction; split; reflexivity.
      * rewrite (insert_under_deferred self row taxonId parentId Hlen) in Hcall
          by (right; assumption).
        injection Hcall as <-. rewrite Htsame. assumption.
    + destruct (insert_under_root self row taxonId parentId Hwf
                  ltac:(lia) Hk) as (s1 & Hcall1 & Hins).
      rewrite Hcall1 in Hcall. injection Hcall as <-.
      destruct Hins as [_ _ (n & a & Htree & _ & _ & Hpred & _ & _ & _ & Hlens) _ _ _].
      rewrite Htree.
      assert (Hd0 : depth_is (tree self) "root" 0).
      { eapply depth_top; [apply (wf_root _ Hwft)|reflexivity]. }
      destruct (Hlens 0 Hd0) as [H1 H2].
      eapply lineage_content_insert; try eassumption.
      * apply (wf_root _ Hwft).
      * intros _. split; [destruct (lineage n)|destruct (lineage_ids n)];
          first [reflexivity|discriminate].
      * congruence.
Qed.

Lemma build_tree_lineage_content self row self' :
  builder_wf self → lineage_content (tree self) →
  build_tree self row = Some (Continue self') →
  lineage_content (tree self').
Proof.
  intros Hwf Hlin Hcall. unfold build_tree in Hcall.
  destruct (faild_rows_append_spec self (r_bytes row)) as (_ & Htsame & _).
  destruct (r_data row !! 0) as [taxonId|]; [|discriminate].
  destruct (r_data row !! 1) as [data1|]; [|discriminate].
  destruct (r_data row !! 2) as [data2|]; [|discriminate].
  destruct (r_header row); [injection Hcall as <-; assumption|].
  destruct (0 <? String.length (lower data2)).
  - destruct (accepted_parent self (lower data2)) as [p|e].
    + eapply insert_under_lineage_content; eassumption.
    + injection Hcall as <-. rewrite Htsame. assumption.
  - eapply insert_under_lineage_content; eassumption.
Qed.

Lemma steps_lineage_content self self' :
  steps self self' → builder_wf self → lineage_content (tree self) →
  lineage_content (tree self').
Proof.
  intros Hsteps. induction Hsteps as [|self self1 self2 row Hs IH Hcall];
    intros Hwf Hlin; [assumption|].
  eapply build_tree_lineage_content; [|apply IH; assumption|eassumption].
  apply (steps_wf _ _ Hwf Hs).
Qed.

Lemma lineage_content_init : lineage_content (tree init).
Proof.
  intros k n p pn Hk Hp _. simpl in Hk. unfold create_tree in Hk.
  apply lookup_singleton_Some in Hk as [_ <-]. discriminate.
Qed.

(** X10.  In every builder a run produces, the cached lineage of a
    node directly under the root is empty, and that of any other node
    is the label of its parent followed by the lineage of the parent;
    the lineage ids are the sequence id of the parent followed by the
    lineage ids of the parent. *)
Theorem lineage_is_parent_label_then_parent_lineage self k n p pn :
  reachable self → tree self !! k = Some n → predecessor n = Some p →
  tree self !! p = Some pn →
  (p = "root" → lineage n = [] ∧ lineage_ids n = []) ∧
  (p ≠ "root" →
     lineage n = tag pn :: lineage pn ∧
     ∃ i, sequence_id self p = Some i ∧ lineage_ids n = i :: lineage_ids pn).
Proof.
  intros Hreach Hk Hp Hpn.
  pose proof (steps_lineage_content init self Hreach builder_wf_init
                lineage_content_init) as Hlin.
  destruct (Hlin k n p pn Hk Hp Hpn) as [Hr Hnr].
  split; [assumption|]. intros Hroot. destruct (Hnr Hroot) as [H1 H2].
  split; [assumption|].
  destruct (nodes_ok_steps init self Hreach builder_wf_init nodes_ok_init)
    as (_ & Hmem & _).
  assert (Hin : p ∈ nodes self) by (apply Hmem; split; [assumption|eauto]).
  apply list_elem_of_lookup in Hin as [j Hj].
  destruct (bwf_numbering _ (reachable_wf self Hreach)) as [_ Hseq].
  destruct (Hseq j p Hj) as [_ Hid].
  eexists. split; [exact Hid|].
  rewrite H2. unfold sequence_id in Hid. rewrite Hpn in Hid.
  unfold get_id_or_default. destruct (data pn) as [a|]; [|discriminate].
  rewrite Hid. reflexivity.
Qed.

(** X11.  In every builder a run produces, [build_classification]
    ends for every identifier; for a node other than the root it gives a
    non-empty list from which [build_tree] would compute exactly the
    lineage and the lineage ids the node has cached; for the root and
    for an identifier that is not in the tree it gives the empty list. *)
Theorem build_classification_agrees_with_cache self k :
  reachable self →
  (∀ n, tree self !! k = Some n → k ≠ "root" →
     ∃ l, build_classification self k = Some l ∧ 0 < length l ∧
          keys (dict (removelast l)) = lineage n ∧
          values (dict (removelast l)) = lineage_ids n) ∧
  (tree self !! k = None ∨ k = "root" → build_classification self k = Some []).
Proof.
  intros Hreach. pose proof (reachable_wf self Hreach) as Hwf.
  pose proof (bwf_tree _ Hwf) as Hwft.
  pose proof (steps_lineage_content init self Hreach builder_wf_init
                lineage_content_init) as Hlin.
  unfold build_classification. split.
  - intros n Hk Hroot.
    destruct (wf_pred _ Hwft k n Hk Hroot) as (p & Hp & [pn Hpn] & _).
    rewrite (get_parent_lookup _ k n Hk), Hp, Hpn.
    destruct (wf_depth _ Hwft p pn Hpn) as (dp & Hdp & Hsize).
    destruct (classification_loop_lineage _ Hwft Hlin dp p pn _ Hdp Hpn Hsize)
      as (l & Hl & Hne & Hfst & Hsnd).
    destruct (classification_loop_spec _ Hwft dp p pn _ Hdp Hpn Hsize)
      as (l' & Hl' & _ & Hnd & _).
    assert (l' = l) by congruence; subst l'.
    exists l. split; [assumption|].
    split; [destruct l; [congruence|simpl; lia]|].
    rewrite (dict_NoDup _ (removelast_NoDup_keys l Hnd)).
    unfold keys, values. rewrite Hfst, Hsnd.
    destruct (Hlin k n p pn Hk Hp Hpn) as [Hr Hnr].
    destruct (decide (p = "root")) as [Hproot|Hproot].
    + destruct (Hr Hproot) as [-> ->]. split; reflexivity.
    + destruct (Hnr Hproot) as [-> ->]. split; reflexivity.
  - intros [Hnone | ->].
    + unfold get_parent, parent. rewrite Hnone. apply classification_loop_None.
    + unfold get_parent, parent. rewrite (wf_root _ Hwft). simpl.
      apply classification_loop_None.
Qed.

(** ** Runs over a given input *)

Lemma read_stream_row_from header f : ∀ latest n row,
  row ∈ read_stream header latest n f → row_from f row.
Proof.
  induction f as [|l0 f IH]; intros latest n row Hin; simpl in Hin.
  - apply elem_of_nil in Hin. contradiction.
  - destruct (decide (latest = Some (l_bytes l0)));
      [apply elem_of_nil in Hin; contradiction|].
    simpl in Hin. apply elem_of_cons in Hin as [->|Hin].
    + exists l0. split; [left|]. split; reflexivity.
    + destruct (IH _ _ _ Hin) as (l & Hl & Hb & Hd).
      exists l. split; [right; assumption|]. split; assumption.
Qed.

(** A seek reads nothing, or the first line that starts at the offset. *)
Lemma read_seek_cases header b f :
  (read_seek header b f = [] ∧ ∀ l, l ∈ f → l_bytes l ≠ b) ∨
  (∃ l, l ∈ f ∧ l_bytes l = b ∧
        read_seek header b f =
          [ {| r_data := l_fields l; r_bytes := l_bytes l; r_line := 1%Z;
               r_header := (1 <=? header)%Z |} ]).
Proof.
  unfold read_seek.
  destruct (List.find (fun l => bool_decide (l_bytes l = b)) f) as [l|] eqn:Hfind.
  - right. apply find_some in Hfind as [Hin Hb].
    apply bool_decide_eq_true_1 in Hb. exists l.
    split; [apply list_elem_of_In; assumption|]. split; [assumption|reflexivity].
  - left. split; [reflexivity|]. intros l Hin Hb.
    apply list_elem_of_In in Hin.
    pose proof (find_none _ _ Hfind l Hin) as Hf. simpl in Hf.
    apply bool_decide_eq_false_1 in Hf. contradiction.
Qed.

Lemma read_seek_row_from header b f row :
  row ∈ read_seek header b f → row_from f row.
Proof.
  intros Hin.
  destruct (read_seek_cases header b f) as [[Hnil _]|(l & Hl & Hb & Hrows)].
  - rewrite Hnil in Hin. apply elem_of_nil in Hin. contradiction.
  - rewrite Hrows in Hin. apply list_elem_of_singleton in Hin as ->.
    exists l. split; [assumption|]. split; reflexivity.
Qed.

Lemma steps_from_steps f self self' : steps_from f self self' → steps self self'.
Proof.
  intros H. induction H as [|self self1 self2 row _ IH _ Hcall];
    [apply steps_refl|].
  eapply steps_call; eassumption.
Qed.

Lemma steps_from_trans f self1 self2 self3 :
  steps_from f self1 self2 → steps_from f self2 self3 →
  steps_from f self1 self3.
Proof.
  intros H12 H23. induction H23 as [|s s1 s2 row _ IH Hrow Hcall];
    [assumption|].
  eapply steps_from_call; [apply IH; assumption | eassumption | eassumption].
Qed.

Lemma build_rows_steps_from f rows : ∀ self self',
  (∀ row, row ∈ rows → row_from f row) →
  build_rows self rows = Some (Continue self') → steps_from f self self'.
Proof.
  induction rows as [|row rows IH]; intros self self' Hrows Hrun;
    simpl in Hrun.
  - injection Hrun as <-. apply steps_from_refl.
  - destruct (build_tree self row) as [[self1|e self1]|] eqn:Hcall;
      try discriminate.
    eapply steps_from_trans.
    + eapply steps_from_call; [apply steps_from_refl| |eassumption].
      apply Hrows. left.
    + apply IH; [|assumption]. intros r Hr. apply Hrows. right. assumption.
Qed.

Lemma retry_loop_steps_from f fuel : ∀ i self self',
  retry_loop fuel f i self = Some (Continue self') → steps_from f self self'.
Proof.
  induction fuel as [|fuel IH]; intros i self self' Hrun; simpl in Hrun;
    destruct (faild_rows self !! i) as [b|]; try discriminate;
    try (injection Hrun as <-; apply steps_from_refl).
  destruct (build_rows self (read_seek 0 b f)) as [[self1|e self1]|] eqn:Hrows;
    try discriminate.
  eapply steps_from_trans; [|eapply IH; eassumption].
  eapply build_rows_steps_from; [|eassumption].
  intros row. apply read_seek_row_from.
Qed.

(** What [processing] ends with is a builder of a run over [f], with
    the deferred offsets reset. *)
Lemma processing_steps_from fuel f self s :
  processing fuel f self = Some (Continue s) →
  ∃ s1 s2, build_rows self (read_stream 1 None 1 f) = Some (Continue s1) ∧
           retry_loop fuel f 0 s1 = Some (Continue s2) ∧
           steps_from f self s1 ∧ steps_from f s1 s2 ∧
           s = faild_rows_reset s2.
Proof.
  unfold processing. intros Hrun.
  destruct (build_rows self (read_stream 1 None 1 f)) as [[s1|e s1]|] eqn:Hfirst;
    try discriminate.
  destruct (retry_loop fuel f 0 s1) as [[s2|e s2]|] eqn:Hretry;
    try discriminate.
  injection Hrun as <-. exists s1, s2.
  split; [reflexivity|]. split; [assumption|]. split; [|split].
  - eapply build_rows_steps_from; [|eassumption].
    intros row. apply read_stream_row_from.
  - eapply retry_loop_steps_from. eassumption.
  - reflexivity.
Qed.

Lemma length_zero_empty (s : string) : String.length s = 0 → s = "".
Proof. destruct s; [reflexivity|discriminate]. Qed.

(** What a call that returns has done, with the parent it has used. *)
Lemma build_tree_row_cases self row self' :
  builder_wf self → build_tree self row = Some (Continue self') →
  (r_header row = true ∧ self' = self) ∨
  (r_header row = false ∧
   (self' = faild_rows_append self (r_bytes row) ∨
    ∃ taxonId d1 d2 p,
      r_data row !! 0 = Some taxonId ∧ r_data row !! 1 = Some d1 ∧
      r_data row !! 2 = Some d2 ∧
      inserted self self' row taxonId p ∧
      (d2 = "" → d1 ≠ "" → p = lower d1) ∧
      (d2 = "" → d1 = "" → p = "root") ∧
      (d2 ≠ "" → lower d2 ≠ "root" ∧
                 ∃ a, tree self !! lower d2 = Some a ∧ predecessor a = Some p))).
Proof.
  intros Hwf Hcall. pose proof (bwf_tree _ Hwf) as Hwft.
  unfold build_tree in Hcall.
  destruct (r_data row !! 0) as [taxonId|] eqn:H0; [|discriminate].
  destruct (r_data row !! 1) as [d1|] eqn:H1; [|discriminate].
  destruct (r_data row !! 2) as [d2|] eqn:H2; [|discriminate].
  destruct (r_header row).
  { left. split; [reflexivity|]. congruence. }
  right. split; [reflexivity|].
  destruct (0 <? String.length (lower d2)) eqn:Hacc.
  - apply Nat.ltb_lt in Hacc. rewrite lower_length in Hacc.
    assert (Hd2 : d2 ≠ "") by (intros ->; simpl in Hacc; lia).
    destruct (fetch_node self (lower d2)) as [a|] eqn:Ha.
    2: { rewrite (accepted_parent_absent _ _ Ha) in Hcall. left. congruence. }
    destruct (decide (identifier a = "root")) as [Hroot|Hroot].
    { rewrite (accepted_parent_root _ _ a Hwft Ha Hroot) in Hcall.
      left. congruence. }
    destruct (accepted_parent_found self (lower d2) a Hwft Ha Hroot)
      as (p & Hpa & Hret & Hin & Hpne & Hplow).
    rewrite Hret in Hcall.
    destruct (insert_under_cases self row taxonId p Hwf (nonempty_length p Hpne))
      as (s1 & Hcall1 & Hcase).
    rewrite Hcall1 in Hcall. injection Hcall as <-.
    destruct Hcase as [->|Hins]; [left; reflexivity|]. right.
    rewrite Hplow in Hins. exists taxonId, d1, d2, p.
    unfold fetch_node, get_node in Ha. rewrite lower_idemp in Ha.
    destruct (wf_key _ Hwft _ _ Ha) as [Hid _].
    do 4 (split; [first [assumption|reflexivity]|]).
    split; [intros; contradiction|]. split; [intros; contradiction|].
    intros _. split; [congruence|eauto].
  - apply Nat.ltb_ge in Hacc. rewrite lower_length in Hacc.
    assert (Hd2 : d2 = "") by (apply length_zero_empty; lia).
    destruct (0 <? String.length (lower d1)) eqn:Hpar.
    + apply Nat.ltb_lt in Hpar.
      assert (Hd1 : d1 ≠ "").
      { intros ->. simpl in Hpar. lia. }
      destruct (insert_under_cases self row taxonId (lower d1) Hwf Hpar)
        as (s1 & Hcall1 & Hcase).
      rewrite Hcall1 in Hcall. injection Hcall as <-.
      destruct Hcase as [->|Hins]; [left; reflexivity|]. right.
      rewrite lower_idemp in Hins. exists taxonId, d1, d2, (lower d1).
      do 4 (split; [first [assumption|reflexivity]|]).
      split; [reflexivity|]. split; intros; contradiction.
    + apply Nat.ltb_ge in Hpar.
      assert (Hzero : String.length (lower d1) = 0) by lia.
      assert (Hd1 : d1 = "").
      { apply length_zero_empty. rewrite <- (lower_length d1). assumption. }
      destruct (tree self !! lower taxonId) as [m|] eqn:Hk.
      * destruct (insert_under_root_duplicate self row taxonId (lower d1) Hzero)
          as (e & He); [rewrite Hk; eauto|].
        congruence.
      * destruct (insert_under_root self row taxonId (lower d1) Hwf Hzero Hk)
          as (s1 & Hcall1 & Hins).
        rewrite Hcall1 in Hcall. injection Hcall as <-. right.
        exists taxonId, d1, d2, "root".
        do 4 (split; [first [assumption|reflexivity]|]).
        split; [intros; contradiction|]. split; [reflexivity|].
        intros; contradiction.
Qed.

Lemma nodes_from_build_tree f self row self' :
  builder_wf self → nodes_from f self → row_from f row →
  build_tree self row = Some (Continue self') → nodes_from f self'.
Proof.
  intros Hwf Hfrom (l & Hl & Hb & Hd) Hcall.
  destruct (build_tree_extends self row self' Hwf Hcall) as [Hkeep _].
  assert (Hold : ∀ k m, tree self !! k = Some m → k ≠ "root" →
            ∃ a l, data m = Some a ∧ l ∈ f ∧ a_bytes a = l_bytes l ∧
              l_fields l !! 0 = Some (tag m) ∧
              ∀ d1 d2, l_fields l !! 1 = Some d1 → l_fields l !! 2 = Some d2 →
                (d2 = "" → d1 ≠ "" → predecessor m = Some (lower d1)) ∧
                (d2 = "" → d1 = "" → predecessor m = Some "root") ∧
                (d2 ≠ "" → lower d2 ≠ "root" ∧ is_Some (tree self' !! lower d2))).
  { intros k m Hk Hroot.
    destruct (Hfrom k m Hk Hroot) as (a & l' & Hdata & Hl' & Hbytes & Hfield & Hrefs).
    exists a, l'. repeat split; try assumption;
      destruct (Hrefs d1 d2 H H0) as (R1 & R2 & R3); auto.
    - apply (R3 H1).
    - destruct (R3 H1) as [_ [x Hx]]. exists x. apply Hkeep. assumption. }
  destruct (build_tree_row_cases self row self' Hwf Hcall)
    as [[_ ->]|[_ [->|(taxonId & d1 & d2 & p & H0 & H1 & H2 & Hins & P1 & P2 & P3)]]].
  - assumption.
  - destruct (faild_rows_append_spec self (r_bytes row)) as (_ & Ht & _).
    unfold nodes_from. rewrite Ht. assumption.
  - pose proof Hins as
      [Hfresh _ (n & a & Htree & Htag & _ & Hpred & Hdata & Hbytes & _) _ _ _].
    intros k m Hk Hroot.
    destruct (decide (lower taxonId = k)) as [<-|Hne].
    + rewrite Htree, lookup_insert_eq in Hk. injection Hk as <-.
      exists a, l. split; [assumption|]. split; [assumption|].
      split; [congruence|]. split; [rewrite Htag, <- Hd; assumption|].
      intros e1 e2 He1 He2. rewrite <- Hd in He1, He2.
      assert (e1 = d1) by congruence. assert (e2 = d2) by congruence. subst.
      rewrite Hpred. repeat split.
      * intros ? ?. f_equal. auto.
      * intros ? ?. f_equal. auto.
      * apply P3. assumption.
      * destruct (P3 H) as [_ (x & Hx & _)]. exists x. apply Hkeep. assumption.
    + rewrite Htree, lookup_insert_ne in Hk by assumption.
      apply (Hold k m Hk Hroot).
Qed.

Lemma nodes_from_steps f self self' :
  steps_from f self self' → builder_wf self → nodes_from f self →
  nodes_from f self'.
Proof.
  intros Hsteps. induction Hsteps as [|self self1 self2 row Hs IH Hrow Hcall];
    intros Hwf Hfrom; [assumption|].
  eapply nodes_from_build_tree; [|apply IH; assumption|eassumption|eassumption].
  apply (steps_wf _ _ Hwf (steps_from_steps _ _ _ Hs)).
Qed.

Lemma nodes_from_init f : nodes_from f init.
Proof.
  intros k n Hk Hroot. simpl in Hk. unfold create_tree in Hk.
  apply lookup_singleton_Some in Hk as [<- _]. congruence.
Qed.

(** X12.  When [processing] ends normally on lines that start at
    different offsets, [fetch_node(k, True)] for every [k] of the nodes
    list finds the node and reads, at the offset stored with it, a data
    row whose first field is the label of the node and lower-cases to
    [k]. *)
Theorem exported_node_reads_its_own_row fuel f s k :
  NoDup (map l_bytes f) →
  processing fuel f init = Some (Continue s) → k ∈ nodes s →
  ∃ raw n a,
    fetch_node_extended s f k = inr (RawAndNode raw n) ∧
    tree s !! k = Some n ∧ data n = Some a ∧
    r_bytes raw = a_bytes a ∧ r_header raw = false ∧
    r_data raw !! 0 = Some (tag n) ∧ lower (tag n) = k.
Proof.
  intros Hnd Hrun Hin.
  destruct (processing_steps_from fuel f init s Hrun)
    as (s1 & s2 & _ & _ & Hs1 & Hs2 & ->).
  pose proof (steps_from_trans _ _ _ _ Hs1 Hs2) as Hs.
  pose proof (steps_from_steps _ _ _ Hs) as Hreach.
  pose proof (reachable_wf s2 Hreach) as Hwf.
  pose proof (nodes_from_steps f init s2 Hs builder_wf_init (nodes_from_init f))
    as Hfrom.
  change (nodes (faild_rows_reset s2)) with (nodes s2) in Hin.
  change (tree (faild_rows_reset s2)) with (tree s2).
  apply list_elem_of_lookup in Hin as [i Hi].
  destruct (bwf_numbering _ Hwf) as [_ Hseq].
  destruct (Hseq i k Hi) as [Hroot Hid].
  destruct (sequence_id_Some_lookup _ _ _ Hid) as [n Hn].
  destruct (wf_key _ (bwf_tree _ Hwf) k n Hn) as [_ Htag].
  destruct (Hfrom k n Hn Hroot) as (a & l & Hdata & Hl & Hbytes & Hfield & _).
  assert (Hlow : lower k = k) by (rewrite <- Htag; apply lower_idemp).
  unfold fetch_node_extended, get_node.
  change (tree (faild_rows_reset s2)) with (tree s2).
  rewrite Hlow, Hn, Hdata, Hbytes.
  unfold read_seek. rewrite (find_offset f l Hnd Hl). simpl.
  eexists _, n, a. repeat split; try assumption; try reflexivity.
  simpl. congruence.
Qed.

(** ** What a run that ends has done *)

Lemma offsets_inj f l l' :
  NoDup (map l_bytes f) → l ∈ f → l' ∈ f → l_bytes l = l_bytes l' → l = l'.
Proof.
  induction f as [|l0 f IH]; intros Hnd Hl Hl' Heq.
  - apply elem_of_nil in Hl. contradiction.
  - simpl in Hnd. apply NoDup_cons in Hnd as [Hout Hnd].
    assert (Hmap : ∀ x, x ∈ f → l_bytes x ∈ map l_bytes f).
    { intros x Hx. apply list_elem_of_In, in_map, list_elem_of_In. assumption. }
    apply elem_of_cons in Hl as [->|Hl]; apply elem_of_cons in Hl' as [->|Hl'].
    + reflexivity.
    + exfalso. apply Hout. rewrite Heq. apply Hmap. assumption.
    + exfalso. apply Hout. rewrite <- Heq. apply Hmap. assumption.
    + apply IH; assumption.
Qed.

Lemma settled_mono f self self' b :
  (∀ k n, tree self !! k = Some n → tree self' !! k = Some n) →
  settled f self b → settled f self' b.
Proof.
  intros Hkeep Hs l Hl Hb.
  destruct (Hs l Hl Hb) as (t & n & a & Ht & Hn & Hrest).
  exists t, n, a. split; [assumption|]. split; [apply Hkeep; assumption|assumption].
Qed.

(** A data row either gets a node of its own or is deferred. *)
Lemma build_tree_settles f self row self' l :
  NoDup (map l_bytes f) → builder_wf self →
  l ∈ f → r_bytes row = l_bytes l → r_data row = l_fields l →
  r_header row = false →
  build_tree self row = Some (Continue self') →
  settled f self' (l_bytes l) ∨ self' = faild_rows_append self (l_bytes l).
Proof.
  intros Hnd Hwf Hl Hb Hd Hh Hcall.
  destruct (build_tree_row_cases self row self' Hwf Hcall)
    as [[Htrue _]|[_ [->|(taxonId & d1 & d2 & p & H0 & _ & _ & Hins & _)]]].
  - congruence.
  - right. rewrite Hb. reflexivity.
  - left. intros l' Hl' Hb'.
    assert (l' = l) by (apply (offsets_inj f); assumption). subst l'.
    destruct Hins as [_ _ (n & a & Htree & _ & _ & _ & Hdata & Hbytes & _) _ _ _].
    exists taxonId, n, a. rewrite <- Hd. split; [assumption|].
    split; [rewrite Htree; apply lookup_insert_eq|].
    split; [assumption|congruence].
Qed.

Lemma build_rows_wf rows : ∀ self self',
  builder_wf self → build_rows self rows = Some (Continue self') →
  builder_wf self'.
Proof.
  intros self self' Hwf Hrun.
  apply (steps_wf self self' Hwf). eapply build_rows_steps. eassumption.
Qed.

Lemma first_pass_settles_or_defers f rows :
  NoDup (map l_bytes f) →
  ∀ self self', builder_wf self →
    (∀ row, row ∈ rows → row_from f row) →
    build_rows self rows = Some (Continue self') →
    ∀ row, row ∈ rows → r_header row = false →
      settled f self' (r_bytes row) ∨ r_bytes row ∈ faild_rows self'.
Proof.
  intros Hnd. induction rows as [|row0 rows IH];
    intros self self' Hwf Hrows Hrun row Hin Hh.
  - apply elem_of_nil in Hin. contradiction.
  - simpl in Hrun.
    destruct (build_tree self row0) as [[s1|e s1]|] eqn:Hcall; try discriminate.
    pose proof (build_tree_wf _ _ _ Hwf Hcall) as Hwf1.
    pose proof (build_rows_steps rows s1 self' Hrun) as Hsteps.
    apply elem_of_cons in Hin as [->|Hin].
    + destruct (Hrows row0 ltac:(left)) as (l & Hl & Hb & Hd).
      destruct (build_tree_settles f self row0 s1 l Hnd Hwf Hl Hb Hd Hh Hcall)
        as [Hs | ->].
      * left. rewrite Hb. eapply settled_mono; [|eassumption].
        apply (steps_extends s1 self' Hwf1 Hsteps).
      * right. destruct (faild_rows_steps _ _ Hwf1 Hsteps) as (extra & ->).
        destruct (faild_rows_append_spec self (l_bytes l)) as (-> & _).
        rewrite Hb. rewrite !elem_of_app. left. right.
        apply list_elem_of_singleton. reflexivity.
    + apply (IH s1 self' Hwf1); try assumption.
      intros r Hr. apply Hrows. right. assumption.
Qed.

Lemma retried_step f i self self' b :
  NoDup (map l_bytes f) → builder_wf self → retried f i self →
  faild_rows self !! i = Some b →
  build_rows self (read_seek 0 b f) = Some (Continue self') →
  retried f (S i) self'.
Proof.
  intros Hnd Hwf Hret Hi Hrun.
  pose proof (build_rows_steps _ _ _ Hrun) as Hsteps.
  destruct (steps_extends _ _ Hwf Hsteps) as [Hkeep _].
  destruct (faild_rows_steps _ _ Hwf Hsteps) as (extra & Hextra).
  assert (Hself : settled f self' b ∨
                  ∃ j', S i ≤ j' ∧ faild_rows self' !! j' = Some b).
  { destruct (read_seek_cases 0 b f) as [[Hnil Hnone]|(l & Hl & Hb & Hrows)].
    - left. intros l Hl Hb. exfalso. apply (Hnone l Hl Hb).
    - rewrite Hrows in Hrun. simpl in Hrun.
      match type of Hrun with
      | context [build_tree self ?r] => set (row := r) in *
      end.
      destruct (build_tree self row) as [[s1|e s1]|] eqn:Hcall;
        try discriminate.
      injection Hrun as <-.
      destruct (build_tree_settles f self row s1 l Hnd Hwf Hl eq_refl eq_refl
                  eq_refl Hcall) as [Hs | ->].
      + left. rewrite <- Hb. assumption.
      + right. exists (length (faild_rows self)).
        split; [apply lookup_lt_Some in Hi; lia|].
        destruct (faild_rows_append_spec self (l_bytes l)) as (-> & _).
        rewrite Hb. apply list_lookup_middle. reflexivity. }
  intros j c Hj Hc.
  assert (Hc0 : faild_rows self !! j = Some c).
  { rewrite Hextra, lookup_app_l in Hc; [assumption|].
    apply lookup_lt_Some in Hi. lia. }
  destruct (decide (j = i)) as [->|Hne].
  - assert (c = b) by congruence. subst c. assumption.
  - destruct (Hret j c ltac:(lia) Hc0) as [Hs|(j' & Hj' & Hc')].
    + left. eapply settled_mono; eassumption.
    + destruct (decide (j' = i)) as [->|Hne'].
      * assert (c = b) by congruence. subst c. assumption.
      * right. exists j'. split; [lia|].
        rewrite Hextra. apply lookup_app_l_Some. assumption.
Qed.

Lemma retry_loop_settles f fuel :
  NoDup (map l_bytes f) →
  ∀ i self s, builder_wf self → retried f i self →
    retry_loop fuel f i self = Some (Continue s) →
    ∀ b, b ∈ faild_rows s → settled f s b.
Proof.
  intros Hnd. induction fuel as [|fuel IH]; intros i self s Hwf Hret Hrun;
    simpl in Hrun; destruct (faild_rows self !! i) as [b0|] eqn:Hi;
    try discriminate.
  - injection Hrun as <-. intros b Hb.
    apply list_elem_of_lookup in Hb as [j Hj].
    apply lookup_ge_None in Hi. pose proof (lookup_lt_Some _ _ _ Hj) as Hlt.
    destruct (Hret j b ltac:(lia) Hj) as [Hs|(j' & Hj' & Hc)]; [assumption|].
    apply lookup_lt_Some in Hc. lia.
  - destruct (build_rows self (read_seek 0 b0 f)) as [[s1|e s1]|] eqn:Hrows;
      try discriminate.
    apply (IH (S i) s1 s); [|eapply retried_step; eassumption|assumption].
    eapply build_rows_wf; eassumption.
  - injection Hrun as <-. intros b Hb.
    apply list_elem_of_lookup in Hb as [j Hj].
    apply lookup_ge_None in Hi. pose proof (lookup_lt_Some _ _ _ Hj) as Hlt.
    destruct (Hret j b ltac:(lia) Hj) as [Hs|(j' & Hj' & Hc)]; [assumption|].
    apply lookup_lt_Some in Hc. lia.
Qed.

(** When [processing] ends normally, every line after the header has a
    node of its own. *)
Lemma processing_settles fuel f s :
  NoDup (map l_bytes f) →
  processing fuel f init = Some (Continue s) →
  ∀ i l, f !! i = Some l → 1 ≤ i → settled f s (l_bytes l).
Proof.
  intros Hnd Hrun i l Hi Hpos.
  destruct (processing_steps_from fuel f init s Hrun)
    as (s1 & s2 & Hfirst & Hretry & Hs1 & Hs2 & ->).
  pose proof (steps_wf _ _ builder_wf_init (steps_from_steps _ _ _ Hs1)) as Hwf1.
  pose proof (steps_from_steps _ _ _ Hs2) as Hsteps2.
  assert (Hall : ∀ b, b ∈ faild_rows s2 → settled f s2 b).
  { apply (retry_loop_settles f fuel Hnd 0 s1 s2 Hwf1); [|assumption].
    intros j b Hj. lia. }
  assert (Hgoal : settled f s2 (l_bytes l)).
  { destruct (read_streams_every_line_once_aux 1 f Hnd) as [_ Hrows].
    pose proof (Hrows i l Hi) as Hrow.
    destruct (first_pass_settles_or_defers f _ Hnd init s1 builder_wf_init
                ltac:(intros r; apply read_stream_row_from) Hfirst _
                ltac:(eapply list_elem_of_lookup_2; exact Hrow))
      as [Hs|Hin].
    - simpl. apply Z.leb_gt. lia.
    - eapply settled_mono; [|exact Hs]. apply (steps_extends _ _ Hwf1 Hsteps2).
    - apply Hall. destruct (faild_rows_steps _ _ Hwf1 Hsteps2) as (extra & ->).
      apply elem_of_app. left. exact Hin. }
  exact Hgoal.
Qed.

Lemma offsets_index_inj f : ∀ i j l l',
  NoDup (map l_bytes f) → f !! i = Some l → f !! j = Some l' →
  l_bytes l = l_bytes l' → i = j.
Proof.
  induction f as [|l0 f IH]; intros i j l l' Hnd Hi Hj Heq.
  - destruct i; discriminate.
  - simpl in Hnd. apply NoDup_cons in Hnd as [Hout Hnd].
    assert (Hmap : ∀ k x, f !! k = Some x → l_bytes x ∈ map l_bytes f).
    { intros k x Hx. apply list_elem_of_In, in_map, list_elem_of_In.
      eapply list_elem_of_lookup_2. eassumption. }
    destruct i as [|i], j as [|j]; simpl in *.
    + reflexivity.
    + injection Hi as <-. exfalso. apply Hout. rewrite Heq. eapply Hmap. eassumption.
    + injection Hj as <-. exfalso. apply Hout. rewrite <- Heq. eapply Hmap. eassumption.
    + f_equal. eapply IH; eassumption.
Qed.

(** The node a line has got when [processing] ends normally. *)
Lemma processing_line_node fuel f s i l :
  NoDup (map l_bytes f) →
  processing fuel f init = Some (Continue s) →
  f !! i = Some l → 1 ≤ i →
  ∃ t n a, l_fields l !! 0 = Some t ∧ tree s !! lower t = Some n ∧
           data n = Some a ∧ a_bytes a = l_bytes l ∧ tag n = t ∧
           lower t ≠ "root" ∧ builder_wf s ∧ nodes_from f s ∧ nodes_ok s.
Proof.
  intros Hnd Hrun Hi Hpos.
  pose proof (processing_settles fuel f s Hnd Hrun i l Hi Hpos) as Hset.
  destruct (processing_steps_from fuel f init s Hrun)
    as (s1 & s2 & _ & _ & Hs1 & Hs2 & ->).
  pose proof (steps_from_trans _ _ _ _ Hs1 Hs2) as Hs.
  pose proof (steps_from_steps _ _ _ Hs) as Hreach.
  pose proof (reachable_wf s2 Hreach) as Hwf.
  pose proof (nodes_from_steps f init s2 Hs builder_wf_init (nodes_from_init f))
    as Hfrom.
  pose proof (nodes_ok_steps init s2 Hreach builder_wf_init nodes_ok_init) as Hok.
  assert (Hl : l ∈ f) by (eapply list_elem_of_lookup_2; eassumption).
  destruct (Hset l Hl eq_refl) as (t & n & a & Ht & Hn & Hdata & Hbytes).
  change (tree (faild_rows_reset s2)) with (tree s2) in *.
  assert (Hroot : lower t ≠ "root").
  { intros Heq. rewrite Heq, (wf_root _ (bwf_tree _ Hwf)) in Hn.
    injection Hn as <-. discriminate. }
  destruct (Hfrom _ n Hn Hroot) as (a' & l' & Hdata' & Hl' & Hbytes' & Hfield & _).
  assert (a' = a) by congruence. subst a'.
  assert (l' = l) by (apply (offsets_inj f); congruence). subst l'.
  exists t, n, a.
  do 6 (split; [first [assumption|congruence]|]).
  split; [destruct Hwf; split; assumption|].
  split; [exact Hfrom|exact Hok].
Qed.

(** X13.  When [processing] ends normally on lines that start at
    different offsets, every line after the header has a node of its
    own: the node under its lower-cased first field has that field as
    its label, stores the offset of the line, and is in the nodes
    list. *)
Theorem every_data_line_has_its_node fuel f s i l :
  NoDup (map l_bytes f) →
  processing fuel f init = Some (Continue s) →
  f !! i = Some l → 1 ≤ i →
  ∃ t n a, l_fields l !! 0 = Some t ∧ tree s !! lower t = Some n ∧
           tag n = t ∧ data n = Some a ∧ a_bytes a = l_bytes l ∧
           lower t ∈ nodes s.
Proof.
  intros Hnd Hrun Hi Hpos.
  destruct (processing_line_node fuel f s i l Hnd Hrun Hi Hpos)
    as (t & n & a & Ht & Hn & Hdata & Hbytes & Htag & Hroot & _ & _ & Hok).
  exists t, n, a. repeat split; try assumption.
  apply Hok. split; [assumption|eauto].
Qed.

(** X14.  If two lines after the header (starting at different
    offsets) have first fields that are equal up to case, [processing]
    never ends normally: it is left by an exception or the retry loop
    goes on for ever. *)
Theorem duplicate_identifier_never_ends_normally f i j l l' t t' :
  NoDup (map l_bytes f) →
  f !! i = Some l → f !! j = Some l' → 1 ≤ i → 1 ≤ j → i ≠ j →
  l_fields l !! 0 = Some t → l_fields l' !! 0 = Some t' →
  lower t = lower t' →
  ∀ fuel s, processing fuel f init ≠ Some (Continue s).
Proof.
  intros Hnd Hi Hj Hpi Hpj Hij Ht Ht' Hlow fuel s Hrun.
  destruct (processing_line_node fuel f s i l Hnd Hrun Hi Hpi)
    as (t1 & n & a & Ht1 & Hn & Hdata & Hbytes & _).
  destruct (processing_line_node fuel f s j l' Hnd Hrun Hj Hpj)
    as (t2 & n' & a' & Ht2 & Hn' & Hdata' & Hbytes' & _).
  assert (t1 = t) by congruence. assert (t2 = t') by congruence. subst.
  rewrite Hlow in Hn. assert (n' = n) by congruence. subst n'.
  assert (a' = a) by congruence. subst a'.
  apply Hij. eapply (offsets_index_inj f); try eassumption. congruence.
Qed.

(** X15.  If a line after the header refers, through its accepted
    usage, or with no accepted usage through a parent field other than
    [root], to an identifier that no line of the input has as its first
    field, [processing] never ends normally. *)
Theorem dangling_reference_never_ends_normally f i l d1 d2 r :
  NoDup (map l_bytes f) →
  f !! i = Some l → 1 ≤ i →
  l_fields l !! 1 = Some d1 → l_fields l !! 2 = Some d2 →
  (d2 ≠ "" ∧ r = lower d2) ∨
  (d2 = "" ∧ d1 ≠ "" ∧ r = lower d1 ∧ r ≠ "root") →
  (∀ l' t', l' ∈ f → l_fields l' !! 0 = Some t' → lower t' ≠ r) →
  ∀ fuel s, processing fuel f init ≠ Some (Continue s).
Proof.
  intros Hnd Hi Hpos H1 H2 Href Hnone fuel s Hrun.
  destruct (processing_line_node fuel f s i l Hnd Hrun Hi Hpos)
    as (t & n & a & Ht & Hn & Hdata & Hbytes & Htag & Hroot & Hwf & Hfrom & _).
  pose proof (bwf_tree _ Hwf) as Hwft.
  destruct (Hfrom _ n Hn Hroot) as (a' & l' & Hdata' & Hl' & Hbytes' & _ & Hrefs).
  assert (a' = a) by congruence. subst a'.
  assert (Hl : l ∈ f) by (eapply list_elem_of_lookup_2; eassumption).
  assert (l' = l) by (apply (offsets_inj f); congruence). subst l'.
  destruct (Hrefs d1 d2 H1 H2) as (R1 & _ & R3).
  assert (Hr : is_Some (tree s !! r) ∧ r ≠ "root").
  { destruct Href as [[Hd2 ->]|(Hd2 & Hd1 & -> & Hrr)].
    - destruct (R3 Hd2) as [? ?]. split; assumption.
    - split; [|assumption].
      destruct (wf_pred _ Hwft _ n Hn Hroot) as (p & Hp & Hin & _).
      rewrite (R1 Hd2 Hd1) in Hp. injection Hp as <-. assumption. }
  destruct Hr as [[m Hm] Hrr].
  destruct (Hfrom r m Hm Hrr) as (am & lm & _ & Hlm & _ & Hfield & _).
  destruct (wf_key _ Hwft r m Hm) as [_ Htagm].
  apply (Hnone lm (tag m) Hlm Hfield Htagm).
Qed.

(** ** Rows without accepted usage, and the exceptions that escape *)

Lemma add_node_to_tree_duplicate self tg par d :
  is_Some (tree self !! lower tg) →
  add_node_to_tree self tg par d
    = (Raised (Exception DuplicatedNodeIdError), self).
Proof.
  intros [m Hm]. unfold add_node_to_tree, create_node.
  change (tree (set_num_read_rows self (num_read_rows self + 1)%Z))
    with (tree self).
  rewrite Hm, set_num_read_rows_restore. reflexivity.
Qed.

Lemma build_tree_no_accepted self row t d1 :
  r_header row = false → r_data row !! 0 = Some t →
  r_data row !! 1 = Some d1 → r_data row !! 2 = Some "" →
  build_tree self row = insert_under self row t (lower d1).
Proof.
  intros Hh H0 H1 H2. unfold build_tree. rewrite H0, H1, H2, Hh. reflexivity.
Qed.

(** X16.  A data row without accepted usage, met in a builder of a
    run.  With a new identifier and a parent field that is empty or
    names a node of the tree, the row is inserted, under [root] or under
    that node, keeps its first field as label, gets the next sequence id
    and goes to the end of the nodes list; nothing is deferred.  With a
    non-empty parent field and an identifier that is taken or a parent
    that is not in the tree, the row is deferred. *)
Theorem ordinary_row_goes_under_its_parent self row t d1 :
  reachable self → r_header row = false →
  r_data row !! 0 = Some t → r_data row !! 1 = Some d1 →
  r_data row !! 2 = Some "" →
  (tree self !! lower t = None →
   d1 = "" ∨ is_Some (tree self !! lower d1) →
   ∃ self' n,
     build_tree self row = Some (Continue self') ∧
     tree self' !! lower t = Some n ∧ tag n = t ∧
     predecessor n = Some (if decide (d1 = "") then "root" else lower d1) ∧
     sequence_id self' (lower t) = Some (num_read_rows self + 1)%Z ∧
     nodes self' = nodes self ++ [lower t] ∧
     faild_rows self' = faild_rows self) ∧
  (d1 ≠ "" →
   is_Some (tree self !! lower t) ∨ tree self !! lower d1 = None →
   build_tree self row
     = Some (Continue (faild_rows_append self (r_bytes row)))).
Proof.
  intros Hreach Hh H0 H1 H2. pose proof (reachable_wf self Hreach) as Hwf.
  rewrite (build_tree_no_accepted self row t d1 Hh H0 H1 H2). split.
  - intros Hfresh Hpar. destruct (decide (d1 = "")) as [->|Hd1].
    + destruct (insert_under_root self row t (lower "") Hwf eq_refl Hfresh)
        as (self' & Hcall & Hins).
      destruct (inserted_lookup _ _ _ _ _ Hins) as (n & Hn & Htag & Hp & Hid).
      exists self', n. repeat split; try assumption.
      * apply (ins_nodes _ _ _ _ _ Hins).
      * apply (ins_faild _ _ _ _ _ Hins).
    + destruct Hpar as [?|Hpar]; [contradiction|].
      assert (Hlen : 0 < String.length (lower d1)).
      { rewrite lower_length. apply nonempty_length. assumption. }
      destruct (insert_under_parent self row t (lower d1) Hwf Hlen Hfresh)
        as (self' & Hcall & Hins); [rewrite lower_idemp; assumption|].
      rewrite lower_idemp in Hins.
      destruct (inserted_lookup _ _ _ _ _ Hins) as (n & Hn & Htag & Hp & Hid).
      exists self', n. repeat split; try assumption.
      * apply (ins_nodes _ _ _ _ _ Hins).
      * apply (ins_faild _ _ _ _ _ Hins).
  - intros Hd1 Hcase. apply insert_under_deferred.
    + rewrite lower_length. apply nonempty_length. assumption.
    + rewrite lower_idemp. assumption.
Qed.

(** X17.  In a builder of a run an exception leaves [build_tree] in
    two cases only, the builder being as before the call: [IndexError]
    for a row with fewer than three fields, and the [Exception] of
    [add_node_to_tree] for a data row with empty parent and accepted
    usage whose identifier is already in the tree. *)
Theorem build_tree_aborts_exactly_when self row :
  reachable self →
  (∀ e self', build_tree self row = Some (Abort e self') →
     self' = self ∧
     ((e = IndexError ∧ length (r_data row) < 3) ∨
      (e = Exception DuplicatedNodeIdError ∧ r_header row = false ∧
       ∃ t, r_data row !! 0 = Some t ∧ r_data row !! 1 = Some "" ∧
            r_data row !! 2 = Some "" ∧ is_Some (tree self !! lower t)))) ∧
  (∀ t, r_header row = false → r_data row !! 0 = Some t →
        r_data row !! 1 = Some "" → r_data row !! 2 = Some "" →
        is_Some (tree self !! lower t) →
        build_tree self row
          = Some (Abort (Exception DuplicatedNodeIdError) self)).
Proof.
  intros Hreach. pose proof (reachable_wf self Hreach) as Hwf.
  pose proof (bwf_tree _ Hwf) as Hwft. split.
  - intros e self' Hcall. unfold build_tree in Hcall.
    destruct (r_data row !! 0) as [t|] eqn:H0.
    2: { injection Hcall as <- <-. split; [reflexivity|]. left.
         split; [reflexivity|]. apply lookup_ge_None in H0. lia. }
    destruct (r_data row !! 1) as [d1|] eqn:H1.
    2: { injection Hcall as <- <-. split; [reflexivity|]. left.
         split; [reflexivity|]. apply lookup_ge_None in H1. lia. }
    destruct (r_data row !! 2) as [d2|] eqn:H2.
    2: { injection Hcall as <- <-. split; [reflexivity|]. left.
         split; [reflexivity|]. apply lookup_ge_None in H2. lia. }
    destruct (r_header row); [discriminate|].
    destruct (0 <? String.length (lower d2)) eqn:Hacc.
    + destruct (accepted_parent_cases self (lower d2) Hwft)
        as [[e' He] | (p & Hp & _ & Hpne & _)].
      * rewrite He in Hcall. discriminate.
      * rewrite Hp in Hcall.
        destruct (insert_under_cases self row t p Hwf (nonempty_length p Hpne))
          as (s1 & Hcall1 & _).
        congruence.
    + apply Nat.ltb_ge in Hacc. rewrite lower_length in Hacc.
      assert (d2 = "") by (apply length_zero_empty; lia). subst d2.
      destruct (0 <? String.length (lower d1)) eqn:Hpar.
      * apply Nat.ltb_lt in Hpar.
        destruct (insert_under_cases self row t (lower d1) Hwf Hpar)
          as (s1 & Hcall1 & _).
        congruence.
      * apply Nat.ltb_ge in Hpar. rewrite lower_length in Hpar.
        assert (d1 = "") by (apply length_zero_empty; lia). subst d1.
        destruct (tree self !! lower t) as [m|] eqn:Hk.
        -- unfold insert_under in Hcall. simpl (0 <? _) in Hcall. cbv iota in Hcall.
           rewrite (add_node_to_tree_duplicate self t "root")
             in Hcall by (rewrite Hk; eauto).
           injection Hcall as <- <-. split; [reflexivity|]. right.
           split; [reflexivity|]. split; [reflexivity|].
           exists t. repeat split. rewrite Hk. eauto.
        -- destruct (insert_under_root self row t (lower "") Hwf eq_refl Hk)
             as (s1 & Hcall1 & _).
           congruence.
  - intros t Hh H0 H1 H2 Hdup.
    rewrite (build_tree_no_accepted self row t "" Hh H0 H1 H2).
    unfold insert_under. simpl (0 <? _). cbv iota.
    rewrite (add_node_to_tree_duplicate self t "root" _ Hdup). reflexivity.
Qed.

Lemma headers_after_data_rows f : ∀ header latest n headers,
  (header < n)%Z →
  headers_after headers (read_stream header latest n f) = headers.
Proof.
  induction f as [|l f IH]; intros header latest n headers Hn; simpl;
    [reflexivity|].
  destruct (decide (latest = Some (l_bytes l))); [reflexivity|]. simpl.
  assert (Hfalse : (n <=? header)%Z = false) by (apply Z.leb_gt; assumption).
  rewrite Hfalse. apply IH. lia.
Qed.

Lemma set_headers_ascii row :
  Forall (fun x => ascii_only x = true) row →
  ∃ hs, set_headers row = Some hs ∧
        Forall2 (fun x h => slug x = Some h) row hs ∧
        Forall (fun h => slugged false h = true) hs.
Proof.
  induction row as [|x row IH]; intros Hrow.
  - exists []. split; [reflexivity|]. split; constructor.
  - apply Forall_cons in Hrow as [Hx Hrow].
    destruct (IH Hrow) as (hs & Hset & Hall & Hslug).
    exists (lower (sub_runs false x) :: hs). simpl.
    rewrite (slug_ascii x Hx), Hset. split; [reflexivity|]. split.
    + constructor; [apply slug_ascii; assumption|assumption].
    + constructor; [apply slugged_slug_gen|assumption].
Qed.

(** X18.  When the fields of the first line are ASCII text, the column
    names after the first pass are the slugs of those fields, one for
    one, whatever the names were before, and each is in slug normal
    form; an empty input and the seeks of the retry pass and of the
    export leave the column names alone. *)
Theorem headers_come_from_the_first_line l f headers b :
  Forall (fun x => ascii_only x = true) (l_fields l) →
  (∃ hs, headers_after headers (read_stream 1 None 1 (l :: f)) = Some hs ∧
         Forall2 (fun x h => slug x = Some h) (l_fields l) hs ∧
         Forall (fun h => slugged false h = true) hs) ∧
  headers_after headers (read_stream 1 None 1 []) = headers ∧
  headers_after headers (read_seek 0 b (l :: f)) = headers.
Proof.
  intros Hascii. split; [|split; [reflexivity|]].
  - destruct (set_headers_ascii (l_fields l) Hascii) as (hs & Hset & Hall & Hslug).
    exists hs. split; [|split; assumption].
    simpl. rewrite headers_after_data_rows by lia. assumption.
  - destruct (read_seek_cases 0 b (l :: f)) as [[-> _]|(l' & _ & _ & ->)];
      reflexivity.
Qed.

(** ** Input that needs no retry *)

(** A row with an accepted usage that resolves is inserted. *)
Lemma build_tree_accepted_inserts self row t d1 d2 a :
  builder_wf self → r_header row = false →
  r_data row !! 0 = Some t → r_data row !! 1 = Some d1 →
  r_data row !! 2 = Some d2 → d2 ≠ "" →
  tree self !! lower d2 = Some a → lower d2 ≠ "root" →
  tree self !! lower t = None →
  ∃ self' p, build_tree self row = Some (Continue self') ∧
             inserted self self' row t p.
Proof.
  intros Hwf Hh H0 H1 H2 Hd2 Ha Hroot Hfresh.
  pose proof (bwf_tree _ Hwf) as Hwft.
  assert (Hpos : (0 <? String.length (lower d2)) = true).
  { apply Nat.ltb_lt. rewrite lower_length. apply nonempty_length. assumption. }
  assert (Hfetch : fetch_node self (lower d2) = Some a).
  { unfold fetch_node, get_node. rewrite lower_idemp. assumption. }
  assert (Hida : identifier a ≠ "root").
  { destruct (wf_key _ Hwft _ _ Ha) as [-> _]. assumption. }
  destruct (accepted_parent_found self (lower d2) a Hwft Hfetch Hida)
    as (p & _ & Hret & Hin & Hpne & Hplow).
  destruct (insert_under_parent self row t p Hwf (nonempty_length p Hpne) Hfresh)
    as (self' & Hcall & Hins); [rewrite Hplow; assumption|].
  rewrite Hplow in Hins. exists self', p. split; [|assumption].
  unfold build_tree. rewrite H0, H1, H2, Hh, Hpos, Hret. assumption.
Qed.

Lemma build_tree_in_order_line self row t d1 d2 :
  builder_wf self → r_header row = false →
  r_data row !! 0 = Some t → r_data row !! 1 = Some d1 →
  r_data row !! 2 = Some d2 →
  tree self !! lower t = None →
  (d2 ≠ "" → is_Some (tree self !! lower d2) ∧ lower d2 ≠ "root") →
  (d2 = "" → d1 ≠ "" → is_Some (tree self !! lower d1)) →
  ∃ self' p, build_tree self row = Some (Continue self') ∧
             inserted self self' row t p.
Proof.
  intros Hwf Hh H0 H1 H2 Hfresh Hacc Hpar.
  destruct (decide (d2 = "")) as [->|Hd2].
  - rewrite (build_tree_no_accepted self row t d1 Hh H0 H1 H2).
    destruct (decide (d1 = "")) as [->|Hd1].
    + destruct (insert_under_root self row t (lower "") Hwf eq_refl Hfresh)
        as (self' & Hcall & Hins). eauto.
    + assert (Hlen : 0 < String.length (lower d1)).
      { rewrite lower_length. apply nonempty_length. assumption. }
      destruct (insert_under_parent self row t (lower d1) Hwf Hlen Hfresh)
        as (self' & Hcall & Hins);
        [rewrite lower_idemp; apply Hpar; [reflexivity|assumption]|].
      eauto.
  - destruct (Hacc Hd2) as [[a Ha] Hroot].
    eapply build_tree_accepted_inserts; eassumption.
Qed.

Lemma first_pass_in_order ls : ∀ seen latest n self,
  builder_wf self → (1 < n)%Z →
  NoDup (map l_bytes ls) →
  (∀ b, latest = Some b → b ∉ map l_bytes ls) →
  (∀ k, k ∈ seen ↔ is_Some (tree self !! k)) →
  in_order seen ls →
  ∃ self', build_rows self (read_stream 1 latest n ls) = Some (Continue self') ∧
           nodes self' = nodes self ++ map line_identifier ls ∧
           faild_rows self' = faild_rows self.
Proof.
  induction ls as [|l ls IH]; intros seen latest n self Hwf Hn Hnd Hlatest Hseen Hord.
  - exists self. split; [reflexivity|]. split; [|reflexivity].
    simpl. symmetry. apply app_nil_r.
  - simpl in Hnd. apply NoDup_cons in Hnd as [Hout Hnd].
    destruct Hord as (t & d1 & d2 & H0 & H1 & H2 & Hnew & Hacc & Hpar & Hord).
    simpl read_stream.
    destruct (decide (latest = Some (l_bytes l))) as [Heq|_].
    { exfalso. apply (Hlatest _ Heq). simpl. left. }
    simpl.
    assert (Hhead : (n <=? 1)%Z = false) by (apply Z.leb_gt; assumption).
    rewrite Hhead.
    match goal with
    | |- context [build_tree self ?r] => set (row := r)
    end.
    destruct (build_tree_in_order_line self row t d1 d2 Hwf eq_refl H0 H1 H2)
      as (s1 & p & Hcall & Hins).
    { destruct (tree self !! lower t) eqn:Hk; [|reflexivity].
      exfalso. apply Hnew. apply Hseen. rewrite Hk. eauto. }
    { intros Hd2. destruct (Hacc Hd2) as [Hin Hroot].
      split; [apply Hseen; assumption|assumption]. }
    { intros Hd2 Hd1. apply Hseen. apply Hpar; assumption. }
    rewrite Hcall.
    destruct (IH (seen ++ [lower t]) (Some (l_bytes l)) (n + 1)%Z s1) as
      (self' & Hrun & Hnodes & Hfaild); try assumption.
    + eapply builder_wf_inserted; eassumption.
    + lia.
    + intros b Hb. injection Hb as <-. assumption.
    + intros k. destruct Hins as [_ _ (m & a & Htree & _) _ _ _].
      rewrite Htree, elem_of_app, list_elem_of_singleton, Hseen.
      destruct (decide (lower t = k)) as [<-|Hne].
      * rewrite lookup_insert_eq. split; [eauto|]. intros _. right. reflexivity.
      * rewrite lookup_insert_ne by assumption. split.
        -- intros [?|?]; [assumption|congruence].
        -- intros ?. left. assumption.
    + exists self'. split; [assumption|]. split.
      * rewrite Hnodes, (ins_nodes _ _ _ _ _ Hins), <- app_assoc. simpl.
        unfold line_identifier at 2. rewrite H0. reflexivity.
      * rewrite Hfaild. apply (ins_faild _ _ _ _ _ Hins).
Qed.

Lemma build_tree_header_row self row :
  3 ≤ length (r_data row) → r_header row = true →
  build_tree self row = Some (Continue self).
Proof.
  intros Hlen Hh. unfold build_tree.
  destruct (r_data row) as [|x0 [|x1 [|x2 rest]]]; simpl in *; try lia.
  rewrite Hh. reflexivity.
Qed.

Lemma retry_loop_nothing_deferred fuel f self :
  faild_rows self = [] → retry_loop fuel f 0 self = Some (Continue self).
Proof. intros Hnil. destruct fuel; simpl; rewrite Hnil; reflexivity. Qed.

(** X19.  On an input whose header has at least three fields, whose
    lines start at different offsets and come in order (three fields
    each, a new identifier, references to identifiers of earlier lines
    only), the first pass inserts every line after the header in turn
    and defers nothing, and [processing] ends normally whatever the
    fuel. *)
Theorem ordered_input_needs_no_retry h ls :
  3 ≤ length (l_fields h) →
  NoDup (map l_bytes (h :: ls)) →
  in_order ["root"] ls →
  ∃ s1,
    build_rows init (read_stream 1 None 1 (h :: ls)) = Some (Continue s1) ∧
    faild_rows s1 = [] ∧
    nodes s1 = map line_identifier ls ∧
    ∀ fuel, processing fuel (h :: ls) init
            = Some (Continue (faild_rows_reset s1)).
Proof.
  intros Hlen Hnd Hord. simpl in Hnd. apply NoDup_cons in Hnd as [Hout Hnd].
  destruct (first_pass_in_order ls ["root"] (Some (l_bytes h)) 2 init
              builder_wf_init ltac:(lia) Hnd) as (s1 & Hrun & Hnodes & Hfaild).
  - intros b Hb. injection Hb as <-. assumption.
  - intros k. rewrite list_elem_of_singleton. simpl. unfold create_tree. split.
    + intros ->. rewrite lookup_singleton_eq. eauto.
    + intros [n Hn]. apply lookup_singleton_Some in Hn as [<- _]. reflexivity.
  - assumption.
  - assert (Hfirst : build_rows init (read_stream 1 None 1 (h :: ls))
                     = Some (Continue s1)).
    { simpl read_stream. simpl build_rows.
      match goal with
      | |- context [build_tree init ?r] =>
          rewrite (build_tree_header_row init r Hlen eq_refl)
      end.
      exact Hrun. }
    exists s1. split; [assumption|]. split; [exact Hfaild|].
    split; [exact Hnodes|].
    intros fuel. unfold processing. rewrite Hfirst.
    rewrite (retry_loop_nothing_deferred fuel _ s1 Hfaild). reflexivity.
Qed.

(** ** The properties above at sample inputs *)

Lemma slug_normal_form_witness :
  ∃ r, slug "dwc:taxonID" = Some r ∧ slugged false r = true ∧
       slug r = Some r ∧ (r = "dwc:taxonID" ↔ slugged false "dwc:taxonID" = true).
Proof. apply (slug_normal_form "dwc:taxonID"). reflexivity. Defined.

Lemma headers_come_from_the_first_line_witness :
  (∃ hs, headers_after (Some []) (read_stream 1 None 1 file_abc) = Some hs ∧
         Forall2 (fun x h => slug x = Some h) (l_fields header_line) hs ∧
         Forall (fun h => slugged false h = true) hs) ∧
  headers_after (Some []) (read_stream 1 None 1 []) = Some [] ∧
  headers_after (Some []) (read_seek 0 45 file_abc) = Some [].
Proof.
  apply (headers_come_from_the_first_line header_line (tail file_abc)
           (Some []) 45).
  repeat constructor.
Defined.

Lemma save_batches_content_witness :
  ∃ later, save_batches (replicate 150 "s;")
           = join (take 101 (replicate 150 "s;")) :: later.
Proof.
  apply (proj2 (save_batches_content (replicate 150 "s;"))).
  rewrite length_replicate. lia.
Defined.

Lemma combine_later_column_wins_witness :
  ∃ d, combine after_abc file_abc ["id"; "parent"; "id"] "B" = inr d ∧
       NoDup (keys d) ∧ dict_get d "id" = Some "".
Proof.
  refine (combine_later_column_wins after_abc file_abc ["id"; "parent"; "id"]
            "B" {| r_data := ["B"; "A"; ""]; r_bytes := 49%Z; r_line := 1%Z;
                   r_header := false |} _ 2 "id" "" _ _ _ _).
  - vm_compute. reflexivity.
  - reflexivity.
  - reflexivity.
  - intros j Hj Hlen. simpl in Hlen. lia.
Defined.

Lemma file_abc_offsets : NoDup (map l_bytes file_abc).
Proof.
  simpl. repeat (apply NoDup_cons_2; [rewrite ?elem_of_cons, elem_of_nil; intuition discriminate|]).
  apply NoDup_nil_2.
Defined.

Lemma read_streams_every_line_once_witness :
  length (read_stream 1 None 1 file_abc) = length file_abc ∧
  ∀ i l, file_abc !! i = Some l →
    read_stream 1 None 1 file_abc !! i =
      Some {| r_data := l_fields l; r_bytes := l_bytes l;
              r_line := (1 + Z.of_nat i)%Z;
              r_header := (1 + Z.of_nat i <=? 1)%Z |}.
Proof. apply (read_streams_every_line_once 1 file_abc). apply file_abc_offsets. Defined.

Lemma read_seek_one_line_witness :
  read_seek 0 54 file_abc =
    [ {| r_data := ["C"; ""; "B"]; r_bytes := 54%Z; r_line := 1%Z;
         r_header := false |} ].
Proof.
  apply (read_seek_one_line 0 file_abc
           {| l_bytes := 54; l_fields := ["C"; ""; "B"] |}).
  - apply file_abc_offsets.
  - apply list_elem_of_further, list_elem_of_further, list_elem_of_further,
      list_elem_of_here.
Defined.

Lemma tree_is_rooted_witness :
  ("c" = "root" ∧
   {| tag := "C"; identifier := "c"; predecessor := Some "a";
      data := Some {| a_bytes := 54%Z; a_id := Some 3%Z;
                      a_classification := Some ["A"];
                      a_classification_ids := Some [1%Z] |} |} = root_node) ∨
  ("c" ≠ "root" ∧
   ∃ p pn d, Some "a" = Some p ∧ tree after_abc !! p = Some pn ∧ p ≠ "c" ∧
             depth_is (tree after_abc) p d ∧ depth_is (tree after_abc) "c" (S d)).
Proof.
  refine (tree_is_rooted after_abc "c"
            {| tag := "C"; identifier := "c"; predecessor := Some "a";
               data := Some {| a_bytes := 54%Z; a_id := Some 3%Z;
                               a_classification := Some ["A"];
                               a_classification_ids := Some [1%Z] |} |} _ _).
  - apply (build_rows_steps (read_stream 1 None 1 file_abc)).
    vm_compute. reflexivity.
  - vm_compute. reflexivity.
Defined.

Lemma run_only_adds_witness :
  (∀ k n, tree after_ab !! k = Some n → tree after_abc !! k = Some n) ∧
  (∃ extra, nodes after_abc = nodes after_ab ++ extra) ∧
  (∃ extra, faild_rows after_abc = faild_rows after_ab ++ extra) ∧
  (num_read_rows after_ab ≤ num_read_rows after_abc)%Z.
Proof.
  apply (run_only_adds after_ab after_abc).
  - apply (build_rows_steps (read_stream 1 None 1 (take 3 file_abc))).
    vm_compute. reflexivity.
  - apply (steps_call after_ab after_ab after_abc row_c (steps_refl after_ab)).
    vm_compute. reflexivity.
Defined.

Lemma nodes_list_is_the_tree_witness :
  NoDup (nodes after_abc) ∧
  (∀ k, k ∈ nodes after_abc ↔ k ≠ "root" ∧ is_Some (tree after_abc !! k)) ∧
  size (tree after_abc) = S (length (nodes after_abc)) ∧
  num_read_rows after_abc = Z.of_nat (length (nodes after_abc)).
Proof.
  apply (nodes_list_is_the_tree after_abc).
  apply (build_rows_steps (read_stream 1 None 1 file_abc)).
  vm_compute. reflexivity.
Defined.

Lemma lineage_is_parent_label_then_parent_lineage_witness :
  ∃ n pn, tree after_abc !! "c" = Some n ∧ tree after_abc !! "a" = Some pn ∧
          lineage n = tag pn :: lineage pn.
Proof.
  eexists _, _. split; [vm_compute; reflexivity|].
  split; [vm_compute; reflexivity|].
  refine (proj1 (proj2 (lineage_is_parent_label_then_parent_lineage
                          after_abc "c" _ "a" _ _ _ _ _) _)).
  - apply (build_rows_steps (read_stream 1 None 1 file_abc)).
    vm_compute. reflexivity.
  - vm_compute. reflexivity.
  - reflexivity.
  - vm_compute. reflexivity.
  - discriminate.
Defined.

Lemma build_classification_agrees_with_cache_witness :
  ∃ n l, tree after_abc !! "c" = Some n ∧
         build_classification after_abc "c" = Some l ∧ 0 < length l ∧
         keys (dict (removelast l)) = lineage n ∧
         values (dict (removelast l)) = lineage_ids n.
Proof.
  eexists _. 
  assert (Hn : tree after_abc !! "c" =
            Some {| tag := "C"; identifier := "c"; predecessor := Some "a";
                    data := Some {| a_bytes := 54%Z; a_id := Some 3%Z;
                                    a_classification := Some ["A"];
                                    a_classification_ids := Some [1%Z] |} |})
    by (vm_compute; reflexivity).
  destruct (proj1 (build_classification_agrees_with_cache after_abc "c"
                     (build_rows_steps (read_stream 1 None 1 file_abc)
                        init after_abc ltac:(vm_compute; reflexivity)))
              _ Hn ltac:(discriminate)) as (l & Hl).
  exists l. split; [exact Hn | exact Hl].
Defined.

Lemma file_forward_offsets : NoDup (map l_bytes file_forward).
Proof.
  simpl. repeat (apply NoDup_cons_2;
    [rewrite ?elem_of_cons, elem_of_nil; intuition discriminate|]).
  apply NoDup_nil_2.
Defined.

Lemma exported_node_reads_its_own_row_witness :
  ∃ raw n a,
    fetch_node_extended (after_forward 2) file_forward "b"
      = inr (RawAndNode raw n) ∧
    tree (after_forward 2) !! "b" = Some n ∧ data n = Some a ∧
    r_bytes raw = a_bytes a ∧ r_header raw = false ∧
    r_data raw !! 0 = Some (tag n) ∧ lower (tag n) = "b".
Proof.
  apply (exported_node_reads_its_own_row 2 file_forward (after_forward 2) "b").
  - apply file_forward_offsets.
  - vm_compute. reflexivity.
  - vm_compute. apply list_elem_of_further, list_elem_of_here.
Defined.

Lemma every_data_line_has_its_node_witness :
  ∃ t n a,
    l_fields {| l_bytes := 45; l_fields := ["B"; "A"; ""] |} !! 0 = Some t ∧
    tree (after_forward 2) !! lower t = Some n ∧
    tag n = t ∧ data n = Some a ∧ a_bytes a = 45%Z ∧
    lower t ∈ nodes (after_forward 2).
Proof.
  apply (every_data_line_has_its_node 2 file_forward (after_forward 2) 1
           {| l_bytes := 45; l_fields := ["B"; "A"; ""] |}).
  - apply file_forward_offsets.
  - vm_compute. reflexivity.
  - reflexivity.
  - lia.
Defined.

Lemma file_duplicate_offsets : NoDup (map l_bytes file_duplicate).
Proof.
  simpl. repeat (apply NoDup_cons_2;
    [rewrite ?elem_of_cons, elem_of_nil; intuition discriminate|]).
  apply NoDup_nil_2.
Defined.

Lemma duplicate_identifier_never_ends_normally_witness :
  lower "A" = lower "a" ∧
  ∀ fuel s, processing fuel file_duplicate init ≠ Some (Continue s).
Proof.
  split; [reflexivity|].
  apply (duplicate_identifier_never_ends_normally file_duplicate 1 2
           {| l_bytes := 45; l_fields := ["A"; ""; ""] |}
           {| l_bytes := 49; l_fields := ["a"; "A"; ""] |} "A" "a").
  - apply file_duplicate_offsets.
  - reflexivity.
  - reflexivity.
  - lia.
  - lia.
  - lia.
  - reflexivity.
  - reflexivity.
  - reflexivity.
Defined.

Lemma file_orphan_offsets : NoDup (map l_bytes file_orphan).
Proof.
  simpl. repeat (apply NoDup_cons_2;
    [rewrite ?elem_of_cons, elem_of_nil; intuition discriminate|]).
  apply NoDup_nil_2.
Defined.

Lemma dangling_reference_never_ends_normally_witness :
  file_orphan !! 1 = Some {| l_bytes := 45; l_fields := ["B"; "Z"; ""] |} ∧
  ∀ fuel s, processing fuel file_orphan init ≠ Some (Continue s).
Proof.
  split; [reflexivity|].
  apply (dangling_reference_never_ends_normally file_orphan 1
           {| l_bytes := 45; l_fields := ["B"; "Z"; ""] |} "Z" "" "z").
  - apply file_orphan_offsets.
  - reflexivity.
  - lia.
  - reflexivity.
  - reflexivity.
  - right. repeat split; discriminate.
  - intros l' t' Hl Ht. unfold file_orphan in Hl.
    rewrite !elem_of_cons, elem_of_nil in Hl.
    destruct Hl as [->|[->|[]]]; simpl in Ht; injection Ht as <-; discriminate.
Defined.

Lemma ordinary_row_goes_under_its_parent_witness :
  ∃ self' n,
    build_tree after_ab
      {| r_data := ["D"; "B"; ""]; r_bytes := 59%Z; r_line := 4%Z;
         r_header := false |} = Some (Continue self') ∧
    tree self' !! lower "D" = Some n ∧ tag n = "D" ∧
    predecessor n = Some (if decide ("B" = "") then "root" else lower "B") ∧
    sequence_id self' (lower "D") = Some (num_read_rows after_ab + 1)%Z ∧
    nodes self' = nodes after_ab ++ [lower "D"] ∧
    faild_rows self' = faild_rows after_ab.
Proof.
  refine (proj1 (ordinary_row_goes_under_its_parent after_ab
                   {| r_data := ["D"; "B"; ""]; r_bytes := 59%Z; r_line := 4%Z;
                      r_header := false |} "D" "B" _ _ _ _ _) _ _).
  - apply (build_rows_steps (read_stream 1 None 1 (take 3 file_abc))).
    vm_compute. reflexivity.
  - reflexivity.
  - reflexivity.
  - reflexivity.
  - reflexivity.
  - vm_compute. reflexivity.
  - right. vm_compute. eexists. reflexivity.
Defined.

Lemma build_tree_aborts_exactly_when_witness :
  build_tree after_abc
    {| r_data := ["A"; ""; ""]; r_bytes := 59%Z; r_line := 5%Z;
       r_header := false |}
  = Some (Abort (Exception DuplicatedNodeIdError) after_abc).
Proof.
  refine (proj2 (build_tree_aborts_exactly_when after_abc
                   {| r_data := ["A"; ""; ""]; r_bytes := 59%Z; r_line := 5%Z;
                      r_header := false |} _) "A" _ _ _ _ _).
  - apply (build_rows_steps (read_stream 1 None 1 file_abc)).
    vm_compute. reflexivity.
  - reflexivity.
  - reflexivity.
  - reflexivity.
  - reflexivity.
  - vm_compute. eexists. reflexivity.
Defined.

Lemma ordered_input_needs_no_retry_witness :
  ∃ s1,
    build_rows init (read_stream 1 None 1 file_abc) = Some (Continue s1) ∧
    faild_rows s1 = [] ∧
    nodes s1 = map line_identifier (tail file_abc) ∧
    ∀ fuel, processing fuel file_abc init
            = Some (Continue (faild_rows_reset s1)).
Proof.
  apply (ordered_input_needs_no_retry header_line (tail file_abc)).
  - simpl. lia.
  - apply file_abc_offsets.
  - simpl. exists "A", "", "". repeat split; try reflexivity; try congruence.
    + rewrite list_elem_of_singleton. discriminate.
    + exists "B", "A", "". repeat split; try reflexivity; try congruence.
      * rewrite !elem_of_cons, elem_of_nil. intuition discriminate.
      * intros _ _. apply list_elem_of_further, list_elem_of_here.
      * exists "C", "", "B". repeat split; try reflexivity; try congruence.
        -- rewrite !elem_of_cons, elem_of_nil. intuition discriminate.
        -- do 2 apply list_elem_of_further. apply list_elem_of_here.
        -- discriminate.
Defined.
